(** * Gogol: the search front end and the indexing / query core

    The development has two parts.

    - [Frontend] embeds the Angular client: the interfaces and the
      [SearchService] class of [services/search.ts], and the [App] component
      of [app.ts]. Signals are fields of a state record, [subscribe] is an
      effect recorded next to the new state, and the two callbacks of each
      subscription are separate transitions.
    - [Core] is the indexing and query engine behind the API that the client
      calls. It is embedded from its written specification, and every
      definition there says which sentence it follows. *)

From Stdlib Require Import List Bool Arith ZArith NArith Lia.
From Stdlib Require Import Strings.String Strings.Ascii.
From Stdlib Require Import Numbers.DecimalString Numbers.DecimalPos Numbers.DecimalZ.
From Stdlib Require Import Floats.PrimFloat Floats.SpecFloat Floats.FloatOps.
From Stdlib Require Import Reals Lra Sorting.Sorted Sorting.Permutation.
Import ListNotations.

Set Implicit Arguments.
Set Warnings "-register-all".

(* ================================================================== *)
(** * JavaScript strings *)
(* ================================================================== *)

Module JS.

(** A JavaScript string is a sequence of UTF-16 code units. *)
Definition jsstring := list N.

Definition jsstring_eqb (a b : jsstring) : bool :=
  if list_eq_dec N.eq_dec a b then true else false.

(** Literals are written as UTF-8 text and decoded to code units. Only the
    one-, two- and three-byte forms occur (the Basic Multilingual Plane). *)
Fixpoint utf8_decode (fuel : nat) (bs : list N) : jsstring :=
  match fuel with
  | O => []
  | S fuel' =>
    match bs with
    | [] => []
    | b0 :: rest =>
      if (b0 <? 128)%N then b0 :: utf8_decode fuel' rest
      else if (b0 <? 224)%N then
        match rest with
        | b1 :: rest' =>
            ((b0 mod 32) * 64 + b1 mod 64)%N :: utf8_decode fuel' rest'
        | [] => [b0]
        end
      else
        match rest with
        | b1 :: b2 :: rest' =>
            ((b0 mod 16) * 4096 + (b1 mod 64) * 64 + b2 mod 64)%N
              :: utf8_decode fuel' rest'
        | _ => b0 :: rest
        end
    end
  end.

Definition js (s : string) : jsstring :=
  let bs := map N_of_ascii (list_ascii_of_string s) in
  utf8_decode (List.length bs) bs.

(** ECMAScript [WhiteSpace] and [LineTerminator] code points, the ones
    [String.prototype.trim] strips. *)
Definition is_white_space (c : N) : bool :=
  ((9 <=? c) && (c <=? 13) || (c =? 32) || (c =? 160) || (c =? 5760)
   || (8192 <=? c) && (c <=? 8202) || (c =? 8232) || (c =? 8233)
   || (c =? 8239) || (c =? 8287) || (c =? 12288) || (c =? 65279))%N.

Fixpoint trim_start (s : jsstring) : jsstring :=
  match s with
  | [] => []
  | c :: s' => if is_white_space c then trim_start s' else s
  end.

Definition trim_end (s : jsstring) : jsstring :=
  rev (trim_start (rev s)).

(** [String.prototype.trim] *)
Definition trim (s : jsstring) : jsstring := trim_end (trim_start s).

(** [!s] for a string [s]: only the empty string is falsy. *)
Definition falsy (s : jsstring) : bool :=
  match s with [] => true | _ => false end.

(** [Number.MAX_SAFE_INTEGER], [2 ^ 53 - 1], and [Number.isSafeInteger]:
    the integers that a binary64 number holds exactly, one by one. *)
Definition MAX_SAFE_INTEGER : Z := 9007199254740991.

Definition is_safe_integer (n : Z) : Prop :=
  (- MAX_SAFE_INTEGER <= n <= MAX_SAFE_INTEGER)%Z.

(** The decimal numeral of an integer, with a leading minus sign when it is
    negative. On a safe integer this is what [Number.prototype.toString]
    yields. It is not beyond: there a number prints the shortest digits
    that read back as it, filled up with zeros, and an exponent from
    [10 ^ 21] on; nor does a fractional number or [NaN] have a numeral
    here. What is stated of a number's [toString] is therefore stated of
    safe integers. [toFixed] uses the numeral for the exact digits of an
    integer of any size. *)
Definition Z_toString (n : Z) : jsstring :=
  js (NilZero.string_of_int (Z.to_int n)).

(** The inverse reading of a decimal numeral made of ASCII code units. *)
Definition ascii_string_of (s : jsstring) : string :=
  string_of_list_ascii (map ascii_of_N s).

Definition parse_decimal (s : jsstring) : option Z :=
  option_map Z.of_int (NilZero.int_of_string (ascii_string_of s)).

(** [Number.prototype.toFixed(1)]. A finite binary64 value other than zero
    is [m * 2 ^ e], negated when the sign is set. [tenths m e] is the
    integer [n] for which [n / 10] is nearest to it, the larger one of two
    equally near; [whole_part m e] is its integral part. *)
Definition tenths (m : positive) (e : Z) : Z :=
  if (0 <=? e)%Z then 10 * Z.pos m * 2 ^ e
  else (20 * Z.pos m + 2 ^ (- e)) / 2 ^ (1 - e).

Definition whole_part (m : positive) (e : Z) : Z :=
  if (0 <=? e)%Z then Z.pos m * 2 ^ e else Z.pos m / 2 ^ (- e).

(** The digits are those of [n] with a point before the last one, after a
    minus sign for a negative value; a value that is not finite is written
    by name. From [10 ^ 21] on [toFixed] falls back on [toString] and its
    shortest round-trip numeral, which is not modelled: [None]. *)
Definition toFixed1 (x : float) : option jsstring :=
  match Prim2SF x with
  | S754_nan => Some (js "NaN")
  | S754_infinity s => Some (if s then js "-Infinity" else js "Infinity")
  | S754_zero _ => Some (js "0.0")
  | S754_finite s m e =>
      if (10 ^ 21 <=? whole_part m e)%Z then None
      else
        let n := tenths m e in
        Some ((if s then js "-" else [])
                ++ Z_toString (n / 10) ++ js "." ++ Z_toString (n mod 10))
  end.

(** Text whose characters all lie in the ASCII range. *)
Definition ascii_only (s : string) : Prop :=
  Forall (fun c => (N_of_ascii c < 128)%N) (list_ascii_of_string s).

End JS.

(* ================================================================== *)
(** * The Angular client *)
(* ================================================================== *)

Module Frontend.
Import JS.

Local Open Scope string_scope.

(** TypeScript [number]: an IEEE 754 binary64 value. *)
Definition number := float.

(** The member types that occur in the interface declarations. *)
Inductive ts_type : Type :=
| TNumber
| TString
| TBoolean
| TArray (elem : ts_type)
| TInterface (members : list (string * ts_type)).

Definition ts_interface := list (string * ts_type).

Definition member_names (i : ts_interface) : list string := map fst i.

Fixpoint member_type (name : string) (i : ts_interface) : option ts_type :=
  match i with
  | [] => None
  | (n, t) :: rest => if String.eqb n name then Some t else member_type name rest
  end.

(** Two member lists name the same set of fields, none of them twice. *)
Definition has_name (l : list string) (n : string) : bool :=
  existsb (String.eqb n) l.

Fixpoint distinct_names (l : list string) : bool :=
  match l with
  | [] => true
  | n :: rest => negb (has_name rest n) && distinct_names rest
  end.

Definition same_fields (a b : list string) : bool :=
  distinct_names a && distinct_names b
  && forallb (has_name b) a && forallb (has_name a) b.

(** ** services/search.ts *)
Module Search.

(** [export interface SearchResult] *)
Definition SearchResult_decl : ts_interface :=
  [ ("doc_id", TNumber); ("title", TString); ("url", TString);
    ("score", TNumber) ].

Record SearchResult : Type := {
  doc_id : number;
  title : jsstring;
  url : jsstring;
  score : number
}.

(** [export interface SearchResponse] *)
Definition SearchResponse_decl : ts_interface :=
  [ ("query", TString); ("processed_terms", TArray TString);
    ("total_results", TNumber);
    ("results", TArray (TInterface SearchResult_decl)) ].

Record SearchResponse : Type := {
  query : jsstring;
  processed_terms : list jsstring;
  total_results : number;
  results : list SearchResult
}.

(** [export interface HealthResponse] *)
Definition HealthResponse_decl : ts_interface :=
  [ ("status", TString); ("message", TString); ("index_ready", TBoolean) ].

Record HealthResponse : Type := {
  status : jsstring;
  message : jsstring;
  index_ready : bool
}.

(** [export interface IndexStats] *)
Definition IndexStats_decl : ts_interface :=
  [ ("total_documents", TNumber); ("total_terms", TNumber);
    ("total_postings", TNumber); ("db_path", TString);
    ("db_size_mb", TNumber) ].

Record IndexStats : Type := {
  total_documents : number;
  total_terms : number;
  total_postings : number;
  db_path : jsstring;
  db_size_mb : number
}.

(** A call [this.http.get<T>(url, { params })]: the address, the query
    parameters in the order of the object literal, and the type argument
    [T] the response is declared to have. *)
Record HttpGet : Type := {
  get_url : jsstring;
  get_params : list (jsstring * jsstring);
  get_expects : ts_interface
}.

(** [private readonly apiUrl] *)
Definition apiUrl : jsstring := js "http://127.0.0.1:8000/api".

(** [search(query: string, limit: number = 10)]. The default initialiser
    applies when the argument is absent, which [None] stands for. The limit
    is an integer; the parameter sent for it is [limit.toString()] when it
    is a safe integer (see [Z_toString]), as is the 10 that the component
    passes. *)
Definition search (query : jsstring) (limit : option Z) : HttpGet :=
  let limit := match limit with Some n => n | None => 10%Z end in
  let params := [ (js "q", query); (js "limit", Z_toString limit) ] in
  {| get_url := (apiUrl ++ js "/search")%list;
     get_params := params;
     get_expects := SearchResponse_decl |}.

(** [getHealth()] *)
Definition getHealth : HttpGet :=
  {| get_url := (apiUrl ++ js "/health")%list;
     get_params := [];
     get_expects := HealthResponse_decl |}.

(** [getStats()] *)
Definition getStats : HttpGet :=
  {| get_url := (apiUrl ++ js "/stats")%list;
     get_params := [];
     get_expects := IndexStats_decl |}.

End Search.

(** ** app.ts *)
Module AppComponent.
Import Search.

(** The signals of the component. *)
Record App : Type := {
  title : jsstring;
  query : jsstring;
  searchResults : option SearchResponse;
  isLoading : bool;
  errorMessage : option jsstring;
  healthStatus : option HealthResponse;
  stats : option IndexStats
}.

Definition initial : App :=
  {| title := js "Gogol Search";
     query := [];
     searchResults := None;
     isLoading := false;
     errorMessage := None;
     healthStatus := None;
     stats := None |}.

(** [signal.set] on each field that the component writes. *)
Definition set_query (v : jsstring) (a : App) : App :=
  {| title := title a; query := v; searchResults := searchResults a;
     isLoading := isLoading a; errorMessage := errorMessage a;
     healthStatus := healthStatus a; stats := stats a |}.

Definition set_searchResults (v : option SearchResponse) (a : App) : App :=
  {| title := title a; query := query a; searchResults := v;
     isLoading := isLoading a; errorMessage := errorMessage a;
     healthStatus := healthStatus a; stats := stats a |}.

Definition set_isLoading (v : bool) (a : App) : App :=
  {| title := title a; query := query a; searchResults := searchResults a;
     isLoading := v; errorMessage := errorMessage a;
     healthStatus := healthStatus a; stats := stats a |}.

Definition set_errorMessage (v : option jsstring) (a : App) : App :=
  {| title := title a; query := query a; searchResults := searchResults a;
     isLoading := isLoading a; errorMessage := v;
     healthStatus := healthStatus a; stats := stats a |}.

Definition set_healthStatus (v : option HealthResponse) (a : App) : App :=
  {| title := title a; query := query a; searchResults := searchResults a;
     isLoading := isLoading a; errorMessage := errorMessage a;
     healthStatus := v; stats := stats a |}.

Definition set_stats (v : option IndexStats) (a : App) : App :=
  {| title := title a; query := query a; searchResults := searchResults a;
     isLoading := isLoading a; errorMessage := errorMessage a;
     healthStatus := healthStatus a; stats := v |}.

(** What a method does besides writing signals: it subscribes to the
    observable of a request, which sends it, or it logs to the console. *)
Inductive effect : Type :=
| Subscribe (request : HttpGet)
| ConsoleError (label : jsstring).

(** A method maps the state to the new state and the effects it caused,
    in order. *)
Definition method := App -> App * list effect.

Definition seq (m1 m2 : method) : method :=
  fun a =>
    let (a1, e1) := m1 a in
    let (a2, e2) := m2 a1 in
    (a2, (e1 ++ e2)%list).

(** [checkHealth()], and the [next] and [error] callbacks it registers. *)
Definition checkHealth : method :=
  fun a => (a, [Subscribe getHealth]).

Definition checkHealth_next (health : HealthResponse) : method :=
  fun a => (set_healthStatus (Some health) a, []).

Definition checkHealth_error : method :=
  fun a =>
    (set_healthStatus
       (Some {| status := js "error";
                message := js "Impossible de se connecter à l'API. Assurez-vous qu'elle est lancée.";
                index_ready := false |}) a,
     [ConsoleError (js "Erreur de connexion à l'API:")]).

(** [loadStats()] and its callbacks. *)
Definition loadStats : method :=
  fun a => (a, [Subscribe getStats]).

Definition loadStats_next (s : IndexStats) : method :=
  fun a => (set_stats (Some s) a, []).

Definition loadStats_error : method :=
  fun a => (a, [ConsoleError (js "Erreur lors du chargement des stats:")]).

(** [ngOnInit()] *)
Definition ngOnInit : method := seq checkHealth loadStats.

(** [onSearch()] *)
Definition onSearch : method :=
  fun a =>
    let q := trim (query a) in
    if falsy q then
      (set_errorMessage (Some (js "Veuillez entrer une requête")) a, [])
    else
      let a := set_isLoading true a in
      let a := set_errorMessage None a in
      let a := set_searchResults None a in
      (a, [Subscribe (search q (Some 10%Z))]).

(** The [next] and [error] callbacks of the subscription in [onSearch]. *)
Definition onSearch_next (results : SearchResponse) : method :=
  fun a =>
    let a := set_searchResults (Some results) a in
    let a := set_isLoading false a in
    (a, []).

Definition onSearch_error : method :=
  fun a =>
    let a :=
      set_errorMessage
        (Some (js "Erreur lors de la recherche. Assurez-vous que l'API est lancée et que l'index est créé."))
        a in
    let a := set_isLoading false a in
    (a, [ConsoleError (js "Erreur de recherche:")]).

(** The requests among the effects of a step. *)
Definition requests (es : list effect) : list HttpGet :=
  flat_map (fun e => match e with Subscribe r => [r] | ConsoleError _ => [] end) es.

(** [formatScore(score)]: [(score * 100).toFixed(1) + '%']. *)
Definition formatScore (score : number) : option jsstring :=
  option_map (fun digits => (digits ++ js "%")%list)
             (toFixed1 (PrimFloat.mul score 100%float)).

(** ** The component among its callers

    Angular calls [ngOnInit] once, the template writes the query signal and
    calls [onSearch], and each request under way is answered at some later
    time, in no particular order, through the [next] or the [error]
    callback of its subscription. *)
Inductive event : Type :=
| Init
| Edit (text : jsstring)
| Submit
| HealthNext (health : HealthResponse)
| HealthError
| StatsNext (s : IndexStats)
| StatsError
| SearchNext (results : SearchResponse)
| SearchError.

(** The three endpoints, told apart by address. *)
Inductive endpoint : Type := Health | Stats | SearchApi.

Definition endpoint_url (k : endpoint) : jsstring :=
  match k with
  | Health => get_url getHealth
  | Stats => get_url getStats
  | SearchApi => get_url (search [] None)
  end.

Definition calls (k : endpoint) (r : HttpGet) : bool :=
  jsstring_eqb (get_url r) (endpoint_url k).

(** The callback that an event runs and, for an answer, the endpoint whose
    request it answers. *)
Definition handler (e : event) : method :=
  match e with
  | Init => ngOnInit
  | Edit text => fun a => (set_query text a, [])
  | Submit => onSearch
  | HealthNext health => checkHealth_next health
  | HealthError => checkHealth_error
  | StatsNext s => loadStats_next s
  | StatsError => loadStats_error
  | SearchNext results => onSearch_next results
  | SearchError => onSearch_error
  end.

Definition answers (e : event) : option endpoint :=
  match e with
  | Init | Edit _ | Submit => None
  | HealthNext _ | HealthError => Some Health
  | StatsNext _ | StatsError => Some Stats
  | SearchNext _ | SearchError => Some SearchApi
  end.

(** The component and the requests that are under way. *)
Record world : Type := {
  app : App;
  pending : list HttpGet
}.

Fixpoint take_out (p : HttpGet -> bool) (l : list HttpGet)
  : option (list HttpGet) :=
  match l with
  | [] => None
  | r :: rest =>
      if p r then Some rest
      else option_map (cons r) (take_out p rest)
  end.

(** One event. An answer needs a request to its endpoint under way and
    uses it up; the requests that the handler subscribes to are then under
    way. *)
Definition step (w : world) (e : event) : option world :=
  let waiting :=
    match answers e with
    | None => Some (pending w)
    | Some k => take_out (calls k) (pending w)
    end in
  match waiting with
  | None => None
  | Some rest =>
      let (a, effects) := handler e (app w) in
      Some {| app := a; pending := (rest ++ requests effects)%list |}
  end.

Fixpoint run (w : world) (es : list event) : option world :=
  match es with
  | [] => Some w
  | e :: rest =>
      match step w e with
      | Some w' => run w' rest
      | None => None
      end
  end.

Definition start : world := {| app := initial; pending := [] |}.

(** While the loading flag is up there are no results on display and a
    search request is under way. *)
Definition loading_sound (w : world) : Prop :=
  isLoading (app w) = true ->
  searchResults (app w) = None
  /\ existsb (calls SearchApi) (pending w) = true.

(** An answer of the API, for the examples. *)
Definition sample_response : SearchResponse :=
  {| Search.query := js "loire";
     processed_terms := [js "loir"];
     total_results := 1%float;
     results := [ {| doc_id := 2%float; Search.title := js "B";
                     url := js "https://example.org/b";
                     score := 0.5%float |} ] |}.

End AppComponent.

(** ** The serving-layer interface as the specification words it *)
Module SpecInterface.

Definition search_fields : list string :=
  [ "query"; "processed_terms"; "total_results"; "results" ].

Definition result_fields : list string :=
  [ "doc_id"; "title"; "url"; "score" ].

Definition stats_fields : list string :=
  [ "total_documents"; "total_terms"; "total_postings"; "store_size" ].

Definition health_fields : list string :=
  [ "status"; "index_ready" ].

End SpecInterface.

End Frontend.

(* ================================================================== *)
(** * The indexing and query core *)
(* ================================================================== *)

(** Modelled from the spec: the Python packages of the engine, the indexer
    ([src/indexer/models.py], [src/indexer/indexer.py]) and the search
    engine, which the client reaches through the API. Sections 3, 4 and 6
    of the specification are followed; weights are real numbers and [log]
    is [ln]. *)
Module Core.
Import JS.

(** Text is a sequence of Unicode code points; [js] writes literals. *)
Definition text := list N.

Definition text_eqb (a b : text) : bool := jsstring_eqb a b.

Definition text_dec : forall a b : text, {a = b} + {a <> b} :=
  list_eq_dec N.eq_dec.

(** ** Sorting by a boolean comparison *)
Section SortBy.
Variable A : Type.
Variable leb : A -> A -> bool.

Fixpoint insert_by (x : A) (l : list A) : list A :=
  match l with
  | [] => [x]
  | y :: rest => if leb x y then x :: l else y :: insert_by x rest
  end.

Definition sort_by (l : list A) : list A := fold_right insert_by [] l.

(** The order that the comparison decides. *)
Definition le_by (a b : A) : Prop := leb a b = true.
End SortBy.

(** Comparisons of weights as booleans. *)
Definition Rltb (a b : R) : bool := if Rlt_dec a b then true else false.

(** ** 4.1 Text Normalizer *)

(** Modelled from the spec: the fixed language configuration of section 4.1
    (tokenizer, lowercasing, token length bounds, stop-word set, stemmer) and
    its version, which section 9 demands. The natural-language toolkit that
    supplies them is not part of the sources, so they are fields. *)
Record LangConfig : Type := {
  tokenize : text -> list text;
  lowercase : text -> text;
  min_len : nat;
  max_len : nat;
  stop_words : list text;
  stemmer : text -> text;
  config_version : nat
}.

(** Modelled from the spec: the offset of each token in the token sequence
    ("original_offset"), counted from [i]. *)
Fixpoint number_from (A : Type) (i : nat) (l : list A) : list (A * nat) :=
  match l with
  | [] => []
  | x :: rest => (x, i) :: number_from (S i) rest
  end.

(** Modelled from the spec: step 3, "strip tokens outside
    [min_len, max_len]", and step 4, "drop tokens present in the configured
    stop-word set". *)
Definition length_ok (cfg : LangConfig) (t : text) : bool :=
  (min_len cfg <=? List.length t) && (List.length t <=? max_len cfg).

Definition is_stop_word (cfg : LangConfig) (t : text) : bool :=
  existsb (text_eqb t) (stop_words cfg).

(** Modelled from the spec: [normalize(raw_text)] of section 4.1, its five
    steps in order; the result keeps each surviving token's offset in the
    token sequence. *)
Definition normalize (cfg : LangConfig) (raw : text) : list (text * nat) :=
  let tokens := tokenize cfg raw in
  let lowered := map (lowercase cfg) tokens in
  let sized := filter (fun ti => length_ok cfg (fst ti)) (number_from 0 lowered) in
  let kept := filter (fun ti => negb (is_stop_word cfg (fst ti))) sized in
  map (fun ti => (stemmer cfg (fst ti), snd ti)) kept.

Definition stems_of (cfg : LangConfig) (raw : text) : list text :=
  map fst (normalize cfg raw).

(** ** 3 Data model *)

(** Modelled from the spec: the four record kinds of sections 3 and 6. The
    time stamps [indexed_at] and [built_at] are left out. *)
Module Document.
Record t : Type := {
  doc_id : nat;
  url : text;
  title : text;
  content_hash : N;
  text_length : nat;
  term_count : nat
}.
End Document.

Module Term.
Record t : Type := {
  term_id : nat;
  stem : text;
  document_frequency : nat;
  total_occurrences : nat
}.
End Term.

Module Posting.
Record t : Type := {
  term_id : nat;
  doc_id : nat;
  term_frequency : nat;
  tf_idf_score : R;
  positions : list nat
}.
End Posting.

Module IndexMetadata.
Record t : Type := {
  total_documents : nat;
  schema_version : nat
}.
End IndexMetadata.

Record IndexStore : Type := {
  documents : list Document.t;
  terms : list Term.t;
  postings : list Posting.t;
  metadata : IndexMetadata.t
}.

(** Modelled from the spec: a raw document as the crawler hands it over
    (section 6). *)
Module RawDocument.
Record t : Type := { url : text; title : text; text : list N }.
End RawDocument.

(** ** 4.3 Index Store *)

(** Modelled from the spec: [get_document(doc_id)]. *)
Definition get_document (st : IndexStore) (id : nat) : option Document.t :=
  find (fun d => Document.doc_id d =? id) (documents st).

(** Modelled from the spec: [get_term(stem)]. *)
Definition get_term (st : IndexStore) (s : text) : option Term.t :=
  find (fun t => text_eqb (Term.stem t) s) (terms st).

(** Modelled from the spec: the term that a posting's [term_id] names. *)
Definition get_term_by_id (st : IndexStore) (id : nat) : option Term.t :=
  find (fun t => Term.term_id t =? id) (terms st).

(** Modelled from the spec: "ordering by descending [tf_idf_score]"; a
    posting goes before another when its weight is not smaller. *)
Definition heavier (p q : Posting.t) : bool :=
  negb (Rltb (Posting.tf_idf_score p) (Posting.tf_idf_score q)).

(** Modelled from the spec: [postings_for_term(term_id)], by descending
    [tf_idf_score]. *)
Definition postings_for_term (st : IndexStore) (id : nat) : list Posting.t :=
  sort_by heavier (filter (fun p => Posting.term_id p =? id) (postings st)).

(** ** 4.2 Index Builder *)

(** Modelled from the spec: the "per-document term-frequency table" and
    "per-document position list" of section 4.2, one entry per stem with
    its count and its offsets, in the order of first occurrence. *)
Module Entry.
Record t : Type := { stem : text; count : nat; offsets : list nat }.
End Entry.

(** Modelled from the spec: one more occurrence of stem [s], at [off]. *)
Fixpoint add_occurrence (s : text) (off : nat) (table : list Entry.t)
  : list Entry.t :=
  match table with
  | [] => [ {| Entry.stem := s; Entry.count := 1; Entry.offsets := [off] |} ]
  | e :: rest =>
      if text_eqb (Entry.stem e) s then
        {| Entry.stem := Entry.stem e;
           Entry.count := S (Entry.count e);
           Entry.offsets := Entry.offsets e ++ [off] |} :: rest
      else e :: add_occurrence s off rest
  end.

(** Modelled from the spec: "for every surviving (stem, offset) accumulate
    into a per-document term-frequency table and a per-document position
    list". *)
Definition term_table (tokens : list (text * nat)) : list Entry.t :=
  fold_left (fun table so => add_occurrence (fst so) (snd so) table) tokens [].

(** Modelled from the spec: the aggregate update of a term that one more
    document contains [count] times. *)
Definition bump (count : nat) (t : Term.t) : Term.t :=
  {| Term.term_id := Term.term_id t;
     Term.stem := Term.stem t;
     Term.document_frequency := S (Term.document_frequency t);
     Term.total_occurrences := Term.total_occurrences t + count |}.

(** Modelled from the spec: "upsert each distinct stem into the Term table;
    increment [document_frequency] by 1 per document in which it appears and
    [total_occurrences] by its per-document count". The result is the new
    table and the identifier of the stem's term. *)
Definition upsert_term (table : list Term.t) (s : text) (count : nat)
  : list Term.t * nat :=
  match find (fun t => text_eqb (Term.stem t) s) table with
  | Some found =>
      (map (fun t => if text_eqb (Term.stem t) s then bump count t else t) table,
       Term.term_id found)
  | None =>
      let id := S (List.length table) in
      (table ++ [ {| Term.term_id := id; Term.stem := s;
                     Term.document_frequency := 1;
                     Term.total_occurrences := count |} ],
       id)
  end.

(** Modelled from the spec: "write one Posting per (term, document) with
    raw [term_frequency] and collected [positions]". For one table entry of
    the document [doc] the term is upserted and the posting written, its
    weight still to be computed. *)
Definition write_entry (doc : nat) (st : IndexStore) (e : Entry.t)
  : IndexStore :=
  let (table, id) := upsert_term (terms st) (Entry.stem e) (Entry.count e) in
  {| documents := documents st;
     terms := table;
     postings :=
       postings st ++
       [ {| Posting.term_id := id; Posting.doc_id := doc;
            Posting.term_frequency := Entry.count e;
            Posting.tf_idf_score := 0%R;
            Posting.positions := Entry.offsets e |} ];
     metadata := metadata st |}.

(** Modelled from the spec: the postings of a term, for its aggregates
    ("[document_frequency(term) == count(distinct doc_id in postings for
    term)]"). *)
Definition postings_of (id : nat) (ps : list Posting.t) : list Posting.t :=
  filter (fun p => Posting.term_id p =? id) ps.

(** Modelled from the spec: the aggregates of a term once the postings
    [removed] are deleted: one document less for each of its postings among
    them, and their occurrences less. *)
Definition release (removed : list Posting.t) (t : Term.t) : Term.t :=
  let mine := postings_of (Term.term_id t) removed in
  {| Term.term_id := Term.term_id t;
     Term.stem := Term.stem t;
     Term.document_frequency := Term.document_frequency t - List.length mine;
     Term.total_occurrences :=
       Term.total_occurrences t - list_sum (map Posting.term_frequency mine) |}.

(** Modelled from the spec: "its prior Document/Postings are deleted", for
    the documents whose content hash is [h]. The specification names the
    Document and the Postings; the term aggregates follow the postings, as
    the invariants of section 3 have it. *)
Definition forget (st : IndexStore) (h : N) : IndexStore :=
  let gone := fun d => N.eqb (Document.content_hash d) h in
  let ids := map Document.doc_id (filter gone (documents st)) in
  let of_gone := fun p => existsb (Nat.eqb (Posting.doc_id p)) ids in
  {| documents := filter (fun d => negb (gone d)) (documents st);
     terms := map (release (filter of_gone (postings st))) (terms st);
     postings := filter (fun p => negb (of_gone p)) (postings st);
     metadata := metadata st |}.

Section Build.
Variable cfg : LangConfig.
(** Modelled from the spec: the content hash, of which the specification
    fixes only the use. *)
Variable hash : text -> N.

(** Modelled from the spec: the record, if any, of "a document whose hash
    matches". *)
Definition known_document (st : IndexStore) (h : N) : option Document.t :=
  find (fun d => N.eqb (Document.content_hash d) h) (documents st).

(** Modelled from the spec: the identifier of a document that is new to the
    store, above every identifier in use. *)
Definition next_doc_id (st : IndexStore) : nat :=
  S (list_max (map Document.doc_id (documents st))).

(** Modelled from the spec: one document accumulated under the identifier
    [id]: the Document record first, then for each entry of its table the
    posting and the term aggregate. *)
Definition index_as (id : nat) (st : IndexStore) (raw : RawDocument.t)
  : IndexStore :=
  let tokens := normalize cfg (RawDocument.text raw) in
  let doc :=
    {| Document.doc_id := id;
       Document.url := RawDocument.url raw;
       Document.title := RawDocument.title raw;
       Document.content_hash := hash (RawDocument.text raw);
       Document.text_length := List.length (RawDocument.text raw);
       Document.term_count := List.length tokens |} in
  let st1 :=
    {| documents := documents st ++ [doc];
       terms := terms st;
       postings := postings st;
       metadata := metadata st |} in
  fold_left (write_entry id) (term_table tokens) st1.

(** Modelled from the spec: the per-document part of [build] in section
    4.2. A document with an empty body is skipped. One whose content hash
    is recorded is skipped too, unless the build is forced: then its prior
    Document and Postings are deleted and it is accumulated again, in
    place of the record it replaces. *)
Definition index_document (force : bool) (st : IndexStore)
           (raw : RawDocument.t) : IndexStore :=
  match RawDocument.text raw with
  | [] => st
  | _ =>
    let h := hash (RawDocument.text raw) in
    match known_document st h with
    | Some prior =>
        if force then index_as (Document.doc_id prior) (forget st h) raw
        else st
    | None => index_as (next_doc_id st) st raw
    end
  end.

(** Modelled from the spec: "IDF per term as
    [log(total_documents / document_frequency)]". *)
Definition idf (total_documents document_frequency : nat) : R :=
  ln (INR total_documents / INR document_frequency).

(** Modelled from the spec: "normalized TF as
    [term_frequency / term_count_of_document]". *)
Definition tf_normalized (term_frequency term_count : nat) : R :=
  (INR term_frequency / INR term_count)%R.

(** Modelled from the spec: "store [tf_idf_score = TF_normalized x IDF]",
    from the term and the document that the posting names. *)
Definition weigh (st : IndexStore) (total : nat) (p : Posting.t)
  : Posting.t :=
  match get_term_by_id st (Posting.term_id p),
        get_document st (Posting.doc_id p) with
  | Some t, Some d =>
      {| Posting.term_id := Posting.term_id p;
         Posting.doc_id := Posting.doc_id p;
         Posting.term_frequency := Posting.term_frequency p;
         Posting.tf_idf_score :=
           (tf_normalized (Posting.term_frequency p) (Document.term_count d)
            * idf total (Term.document_frequency t))%R;
         Posting.positions := Posting.positions p |}
  | _, _ => p
  end.

(** Modelled from the spec: the final pass, run "only after all documents
    have been counted". It records the number of documents and stores
    every posting's weight. *)
Definition compute_weights (st : IndexStore) : IndexStore :=
  let total := List.length (documents st) in
  {| documents := documents st;
     terms := terms st;
     postings := map (weigh st total) (postings st);
     metadata :=
       {| IndexMetadata.total_documents := total;
          IndexMetadata.schema_version := config_version cfg |} |}.

(** Modelled from the spec: the store before a build. *)
Definition empty_store : IndexStore :=
  {| documents := []; terms := []; postings := [];
     metadata := {| IndexMetadata.total_documents := 0;
                    IndexMetadata.schema_version := config_version cfg |} |}.

(** Modelled from the spec: [build(document_source) -> IndexStore], one
    batch run, forced or not, on the store that earlier runs left. *)
Definition build (force : bool) (prior : IndexStore)
           (source : list RawDocument.t) : IndexStore :=
  compute_weights (fold_left (index_document force) source prior).

(** Modelled from the spec: the builds of a store's life, each with its
    flag and its batch, from the empty store on. *)
Fixpoint builds (runs : list (bool * list RawDocument.t)) (st : IndexStore)
  : IndexStore :=
  match runs with
  | [] => st
  | (force, source) :: rest => builds rest (build force st source)
  end.
End Build.

(** ** 4.4 Query Engine *)

(** Modelled from the spec: [ScoredResult = {doc_id, score, matched_terms}]. *)
Module ScoredResult.
Record t : Type := {
  doc_id : nat;
  score : R;
  matched_terms : list text
}.
End ScoredResult.

(** Modelled from the spec: steps 4 and 6 for one posting. The weight [w]
    of a posting of stem [s] is added to the entry of document [d], and [s]
    to its matched terms; the entry is created at the end when there is
    none. *)
Fixpoint add_match (d : nat) (w : R) (s : text) (acc : list ScoredResult.t)
  : list ScoredResult.t :=
  match acc with
  | [] =>
      [ {| ScoredResult.doc_id := d; ScoredResult.score := w;
           ScoredResult.matched_terms := [s] |} ]
  | r :: rest =>
      if ScoredResult.doc_id r =? d then
        {| ScoredResult.doc_id := d;
           ScoredResult.score := (ScoredResult.score r + w)%R;
           ScoredResult.matched_terms := ScoredResult.matched_terms r ++ [s] |}
          :: rest
      else r :: add_match d w s rest
  end.

(** Modelled from the spec: step 3, "for each distinct query stem, fetch its
    Term and Postings"; an unknown stem contributes nothing. *)
Definition stem_postings (st : IndexStore) (s : text) : list Posting.t :=
  match get_term st s with
  | Some t => postings_for_term st (Term.term_id t)
  | None => []
  end.

(** Modelled from the spec: all postings of one query stem. *)
Definition add_stem (st : IndexStore) (acc : list ScoredResult.t) (s : text)
  : list ScoredResult.t :=
  fold_left
    (fun acc p => add_match (Posting.doc_id p) (Posting.tf_idf_score p) s acc)
    (stem_postings st s) acc.

(** Modelled from the spec: step 4, the additive per-document score. *)
Definition aggregate (st : IndexStore) (stems : list text)
  : list ScoredResult.t :=
  fold_left (add_stem st) stems [].

(** Modelled from the spec: step 5, "sort by descending aggregate score;
    tie-break by ascending [doc_id]". *)
Definition ranks_before (a b : ScoredResult.t) : bool :=
  if Rlt_dec (ScoredResult.score b) (ScoredResult.score a) then true
  else if Rlt_dec (ScoredResult.score a) (ScoredResult.score b) then false
  else ScoredResult.doc_id a <=? ScoredResult.doc_id b.

(** Modelled from the spec: "default 10". *)
Definition default_limit : Z := 10.

(** Modelled from the spec: "truncate to [limit] (default 10, must be a
    positive integer; non-positive or absent falls back to default rather
    than erroring)". *)
Definition effective_limit (limit : option Z) : Z :=
  match limit with
  | Some n => if (0 <? n)%Z then n else default_limit
  | None => default_limit
  end.

(** Modelled from the spec: "each distinct query stem". *)
Definition distinct (stems : list text) : list text := nodup text_dec stems.

(** Modelled from the spec: the sorted candidates, and their truncation to
    the limit in force. *)
Definition ranking (st : IndexStore) (stems : list text)
  : list ScoredResult.t :=
  sort_by ranks_before (aggregate st (distinct stems)).

Definition rank (st : IndexStore) (stems : list text) (limit : option Z)
  : list ScoredResult.t :=
  firstn (Z.to_nat (effective_limit limit)) (ranking st stems).

(** Modelled from the spec: the record that [search] hands to the serving
    layer (section 6). *)
Module SearchResult.
Record t : Type := { doc_id : nat; title : text; url : text; score : R }.
End SearchResult.

Module SearchOutput.
Record t : Type := {
  query : text;
  processed_terms : list text;
  total_results : nat;
  results : list SearchResult.t
}.
End SearchOutput.

(** Modelled from the spec: the error taxonomy of section 7. *)
Inductive ErrorKind : Type :=
| InputError
| StoreUnavailable
| ConfigMismatch
| InvalidQueryParameter.

Inductive outcome : Type :=
| Ok (response : SearchOutput.t)
| Failed (e : ErrorKind).

(** Modelled from the spec: a result as the serving layer gets it. The
    title and address come from the document record; the store never holds
    a posting of a document it does not have, and a result without record
    would get empty ones. *)
Definition to_result (st : IndexStore) (r : ScoredResult.t) : SearchResult.t :=
  let d := get_document st (ScoredResult.doc_id r) in
  {| SearchResult.doc_id := ScoredResult.doc_id r;
     SearchResult.title := match d with Some d => Document.title d | None => [] end;
     SearchResult.url := match d with Some d => Document.url d | None => [] end;
     SearchResult.score := ScoredResult.score r |}.

(** Modelled from the spec: [search(query, limit)], the six steps of
    section 4.4 behind the interface of section 6. [processed_terms] are
    the stems of the query and [total_results] counts the results
    returned. *)
Definition search (cfg : LangConfig) (st : IndexStore)
           (query_text : text) (limit : option Z) : outcome :=
  let stems := stems_of cfg query_text in
  match stems with
  | [] =>
      Ok {| SearchOutput.query := query_text;
            SearchOutput.processed_terms := [];
            SearchOutput.total_results := 0;
            SearchOutput.results := [] |}
  | _ =>
      let ranked := rank st stems limit in
      Ok {| SearchOutput.query := query_text;
            SearchOutput.processed_terms := stems;
            SearchOutput.total_results := List.length ranked;
            SearchOutput.results := map (to_result st) ranked |}
  end.

(** The weights that [d] collects from the postings of the stems. *)
Definition matched_weights (st : IndexStore) (stems : list text) (d : nat)
  : list R :=
  map Posting.tf_idf_score
      (filter (fun p => Posting.doc_id p =? d) (flat_map (stem_postings st) stems)).

Definition sum_weights (ws : list R) : R := fold_right Rplus 0%R ws.

(** The order of step 5 as a relation on results. *)
Definition ranked_before (a b : SearchResult.t) : Prop :=
  (SearchResult.score a > SearchResult.score b)%R
  \/ (SearchResult.score a = SearchResult.score b
      /\ SearchResult.doc_id a < SearchResult.doc_id b).

(** Auxiliary views of the accumulator, for stating what it holds. *)
Definition ids (acc : list ScoredResult.t) : list nat :=
  map ScoredResult.doc_id acc.

(** The score that the accumulator holds for a document, 0 when it holds
    none. *)
Definition score_of (d : nat) (acc : list ScoredResult.t) : R :=
  match find (fun r => ScoredResult.doc_id r =? d) acc with
  | Some r => ScoredResult.score r
  | None => 0%R
  end.

(** The postings of one stem, fed to the accumulator in order. *)
Definition feed (s : text) (ps : list Posting.t) (acc : list ScoredResult.t)
  : list ScoredResult.t :=
  fold_left
    (fun acc p => add_match (Posting.doc_id p) (Posting.tf_idf_score p) s acc)
    ps acc.

Definition weights_for (d : nat) (ps : list Posting.t) : list R :=
  map Posting.tf_idf_score (filter (fun p => Posting.doc_id p =? d) ps).

(** What holds of the tables while builds run: the terms are numbered from
    1 on and no stem has two of them; every posting points at a term and
    at a document of the store; and the [document_frequency] of a term is
    the number of its postings. *)
Definition consistent (st : IndexStore) : Prop :=
  map Term.term_id (terms st) = seq 1 (List.length (terms st))
  /\ NoDup (map Term.stem (terms st))
  /\ Forall (fun p => In (Posting.term_id p) (map Term.term_id (terms st))
                      /\ In (Posting.doc_id p)
                            (map Document.doc_id (documents st)))
            (postings st)
  /\ Forall (fun t => Term.document_frequency t
                      = List.length (postings_of (Term.term_id t) (postings st)))
            (terms st).

End Core.

(* ================================================================== *)
(** * A small configuration and corpus *)
(* ================================================================== *)

(** A configuration to run the core on: letters split tokens, Latin
    capitals are lowered, and the stemmer drops a final [s] or [x] and then
    a final [e]. It stands in for the French toolkit, which it does not
    reproduce. *)
Module Sample.
Import JS Core.

Local Open Scope N_scope.

Definition is_letter (c : N) : bool :=
  (65 <=? c) && (c <=? 90) || (97 <=? c) && (c <=? 122)
  || (192 <=? c) && (c <=? 255) && negb (c =? 215) && negb (c =? 247).

Fixpoint split_words (cur : text) (s : text) : list text :=
  match s with
  | [] => match cur with [] => [] | _ => [rev cur] end
  | c :: rest =>
      if is_letter c then split_words (c :: cur) rest
      else match cur with
           | [] => split_words [] rest
           | _ => rev cur :: split_words [] rest
           end
  end.

Definition lower_char (c : N) : N :=
  if (65 <=? c) && (c <=? 90) || (192 <=? c) && (c <=? 222) && negb (c =? 215)
  then c + 32 else c.

Definition drop_last_if (p : N -> bool) (t : text) : text :=
  match rev t with
  | c :: rest => if p c then rev rest else t
  | [] => t
  end.

Definition stem_word (t : text) : text :=
  drop_last_if (fun c => c =? 101)
    (drop_last_if (fun c => (c =? 115) || (c =? 120)) t).

Local Open Scope string_scope.

Definition config : LangConfig :=
  {| tokenize := split_words [];
     lowercase := map lower_char;
     min_len := 3;
     max_len := 50;
     stop_words := map js [ "les"; "des"; "sont"; "est"; "une"; "dans"; "pour" ];
     stemmer := stem_word;
     config_version := 1 |}.

(** A hash good enough to tell the sample documents apart. *)
Definition checksum (t : text) : N :=
  fold_left (fun h c => (h * 31 + c) mod 4294967296)%N t 7%N.

Definition doc_a : RawDocument.t :=
  {| RawDocument.url := js "https://example.org/a";
     RawDocument.title := js "A";
     RawDocument.text := js "Les châteaux de la Loire sont magnifiques" |}.

Definition doc_b : RawDocument.t :=
  {| RawDocument.url := js "https://example.org/b";
     RawDocument.title := js "B";
     RawDocument.text := js "La Loire est un fleuve" |}.

Definition corpus : list RawDocument.t := [doc_a; doc_b].

Definition store : IndexStore :=
  build config checksum false (empty_store config) corpus.

(** The posting of the stem of Loire in [doc_b], as a build leaves it, a
    forced rebuild of that document included. *)
Definition rebuilt_posting : Posting.t :=
  {| Posting.term_id := 2%nat; Posting.doc_id := 2%nat;
     Posting.term_frequency := 1%nat;
     Posting.tf_idf_score := (INR 1 / INR 2 * ln (INR 2 / INR 2))%R;
     Posting.positions := [1%nat] |}.

(** The same store with its postings held in the opposite order. *)
Definition reversed : IndexStore :=
  {| documents := documents store;
     terms := terms store;
     postings := rev (postings store);
     metadata := metadata store |}.

End Sample.

(* ================================================================== *)
(** * Properties of the client *)
(* ================================================================== *)

Section FieldSets.
Import Frontend.

Lemma has_name_In (l : list string) (n : string) :
  has_name l n = true <-> In n l.
Proof.
  unfold has_name. rewrite existsb_exists. split.
  - intros [x [Hin Heq]]. apply String.eqb_eq in Heq. now subst.
  - intros Hin. exists n. split; [assumption | apply String.eqb_refl].
Qed.

Lemma distinct_names_NoDup (l : list string) :
  distinct_names l = true -> NoDup l.
Proof.
  induction l as [| n rest IH]; simpl; intros H.
  - constructor.
  - apply andb_true_iff in H. destruct H as [Hn Hrest].
    constructor.
    + intros Hin. apply has_name_In in Hin. rewrite Hin in Hn. discriminate.
    + now apply IH.
Qed.

(** [same_fields] decides equality of field sets. *)
Lemma same_fields_sound (a b : list string) :
  same_fields a b = true ->
  NoDup a /\ NoDup b /\ forall n, In n a <-> In n b.
Proof.
  unfold same_fields. intros H.
  repeat (apply andb_true_iff in H; destruct H as [H ?]).
  repeat split; try now apply distinct_names_NoDup.
  - intros Hin. apply has_name_In.
    eapply forallb_forall in Hin; eauto.
  - intros Hin. apply has_name_In.
    match goal with
    | Hb : forallb (has_name a) b = true |- _ =>
        eapply forallb_forall in Hb; eauto
    end.
Qed.
End FieldSets.

Section DecimalNumerals.
Import JS.

Lemma utf8_decode_ascii (bs : list N) (fuel : nat) :
  Forall (fun b => (b < 128)%N) bs ->
  List.length bs <= fuel ->
  utf8_decode fuel bs = bs.
Proof.
  revert bs. induction fuel as [| fuel IH]; intros bs Hall Hlen.
  - destruct bs; [reflexivity | simpl in Hlen; lia].
  - destruct bs as [| b rest]; [reflexivity |].
    inversion Hall as [| ? ? Hb Hrest]; subst.
    simpl. apply N.ltb_lt in Hb. rewrite Hb.
    f_equal. apply IH; [assumption | simpl in Hlen; lia].
Qed.

Lemma js_ascii (s : string) :
  ascii_only s -> js s = map N_of_ascii (list_ascii_of_string s).
Proof.
  intros H. unfold js. apply utf8_decode_ascii.
  - unfold ascii_only in H. now rewrite Forall_map.
  - constructor.
Qed.

Lemma ascii_string_of_js (s : string) :
  ascii_only s -> ascii_string_of (js s) = s.
Proof.
  intros H. rewrite js_ascii by assumption.
  unfold ascii_string_of. rewrite map_map.
  rewrite (map_ext _ (fun c => c)) by (intros c; apply ascii_N_embedding).
  rewrite map_id. apply string_of_list_ascii_of_string.
Qed.

Lemma uint_numeral_ascii (d : Decimal.uint) :
  ascii_only (NilEmpty.string_of_uint d).
Proof.
  unfold ascii_only.
  induction d; simpl; constructor; try assumption; reflexivity.
Qed.

Lemma int_numeral_ascii (d : Decimal.int) :
  ascii_only (NilZero.string_of_int d).
Proof.
  assert (Hu : forall u, ascii_only (NilZero.string_of_uint u)).
  { intros u. destruct u; try apply uint_numeral_ascii.
    unfold ascii_only. simpl. constructor; [reflexivity | constructor]. }
  destruct d as [u | u]; simpl.
  - apply Hu.
  - unfold ascii_only. simpl. constructor; [reflexivity | apply Hu].
Qed.

Lemma to_int_not_nil (n : Z) :
  Z.to_int n <> Decimal.Pos Decimal.Nil /\ Z.to_int n <> Decimal.Neg Decimal.Nil.
Proof.
  destruct n as [| p | p]; simpl; split; try discriminate;
    intros H; injection H as H;
    now apply (Unsigned.to_uint_nonnil p).
Qed.

(** The numeral that [toString] yields reads back as the number. *)
Lemma parse_decimal_toString (n : Z) :
  parse_decimal (Z_toString n) = Some n.
Proof.
  unfold parse_decimal, Z_toString.
  rewrite ascii_string_of_js by apply int_numeral_ascii.
  destruct (to_int_not_nil n) as [Hp Hn].
  rewrite NilZero.isi by assumption.
  simpl. now rewrite DecimalZ.of_to.
Qed.
End DecimalNumerals.

Section ClientClaims.
Import JS Frontend Frontend.Search Frontend.AppComponent.
Local Open Scope string_scope.

(** Claim C1. For every query (and limit), the response that
    [SearchService.search] is declared to deliver has exactly the fields
    query, processed_terms, total_results and results, and the elements of
    results have exactly the fields doc_id, title, url and score. *)
Theorem search_response_fields :
  forall (q : jsstring) (limit : option Z),
    let declared := get_expects (search q limit) in
    same_fields (member_names declared) SpecInterface.search_fields = true
    /\ member_type "processed_terms" declared = Some (TArray TString)
    /\ exists element : ts_interface,
         member_type "results" declared = Some (TArray (TInterface element))
         /\ same_fields (member_names element) SpecInterface.result_fields
            = true.
Proof.
  intros q limit. simpl. split; [reflexivity |]. split; [reflexivity |].
  exists SearchResult_decl. split; reflexivity.
Qed.

(** Claim C2, as stated, fails: the record that [getStats] is declared to
    deliver has no field store_size; it has db_path and db_size_mb. *)
Lemma stats_fields_differ :
  same_fields (member_names (get_expects getStats)) SpecInterface.stats_fields
  = false
  /\ member_type "store_size" (get_expects getStats) = None
  /\ member_type "db_path" (get_expects getStats) = Some TString
  /\ member_type "db_size_mb" (get_expects getStats) = Some TNumber.
Proof. repeat split. Qed.

(** Claim C2, amended. The stats operation delivers a record with exactly
    the fields total_documents, total_terms, total_postings, db_path and
    db_size_mb: the three counters and the size are numbers, the path is a
    string. *)
Theorem stats_response_fields :
  same_fields (member_names (get_expects getStats))
    [ "total_documents"; "total_terms"; "total_postings"; "db_path";
      "db_size_mb" ] = true
  /\ map (fun name => member_type name (get_expects getStats))
         [ "total_documents"; "total_terms"; "total_postings"; "db_size_mb" ]
     = [ Some TNumber; Some TNumber; Some TNumber; Some TNumber ]
  /\ member_type "db_path" (get_expects getStats) = Some TString.
Proof.
  split; [reflexivity |]. split; reflexivity.
Qed.

(** Claim C3, as stated, fails: the record that [getHealth] is declared to
    deliver has a third field, message, and the component itself fills it
    in when the request fails. *)
Lemma health_fields_differ :
  same_fields (member_names (get_expects getHealth))
    SpecInterface.health_fields = false
  /\ member_type "message" (get_expects getHealth) = Some TString
  /\ option_map message (healthStatus (fst (checkHealth_error initial)))
     = Some (js "Impossible de se connecter à l'API. Assurez-vous qu'elle est lancée.").
Proof. repeat split. Qed.

(** Claim C3, amended. The health operation delivers a record with exactly
    the fields status, message and index_ready, where index_ready is a
    boolean. *)
Theorem health_response_fields :
  same_fields (member_names (get_expects getHealth))
    [ "status"; "message"; "index_ready" ] = true
  /\ member_type "index_ready" (get_expects getHealth) = Some TBoolean.
Proof. split; reflexivity. Qed.

(** Claim C9. When the trimmed text of the query signal is empty,
    [onSearch] sends no request: it sets errorMessage to
    'Veuillez entrer une requête' and leaves searchResults and isLoading
    (and every other signal) as they were. *)
Theorem onSearch_blank_query :
  forall a : App,
    trim (query a) = [] ->
    snd (onSearch a) = []
    /\ requests (snd (onSearch a)) = []
    /\ fst (onSearch a)
       = set_errorMessage (Some (js "Veuillez entrer une requête")) a
    /\ errorMessage (fst (onSearch a))
       = Some (js "Veuillez entrer une requête")
    /\ searchResults (fst (onSearch a)) = searchResults a
    /\ isLoading (fst (onSearch a)) = isLoading a.
Proof.
  intros a Hblank. unfold onSearch. rewrite Hblank. simpl.
  repeat split.
Qed.

Lemma onSearch_blank_query_witness :
  let a := set_isLoading true (set_query (js "   ") initial) in
  snd (onSearch a) = []
  /\ requests (snd (onSearch a)) = []
  /\ fst (onSearch a)
     = set_errorMessage (Some (js "Veuillez entrer une requête")) a
  /\ errorMessage (fst (onSearch a))
     = Some (js "Veuillez entrer une requête")
  /\ searchResults (fst (onSearch a)) = searchResults a
  /\ isLoading (fst (onSearch a)) = isLoading a.
Proof.
  apply (onSearch_blank_query
           (set_isLoading true (set_query (js "   ") initial))).
  reflexivity.
Defined.

(** Claim C10. Every search that [onSearch] starts is one request for
    [search] with the trimmed query and the limit 10; [search] sends the
    query unchanged as parameter q and the limit, a safe integer, as its
    decimal numeral (which reads back as the limit), "10" here. *)
Theorem onSearch_request :
  forall a : App,
    trim (query a) <> [] ->
    requests (snd (onSearch a)) = [search (trim (query a)) (Some 10%Z)]
    /\ get_params (search (trim (query a)) (Some 10%Z))
       = [ (js "q", trim (query a)); (js "limit", js "10") ]
    /\ forall (q : jsstring) (n : Z),
         is_safe_integer n ->
         exists numeral : jsstring,
           get_params (search q (Some n))
           = [ (js "q", q); (js "limit", numeral) ]
           /\ numeral = Z_toString n
           /\ parse_decimal numeral = Some n.
Proof.
  intros a Hq. unfold onSearch.
  destruct (trim (query a)) as [| c rest] eqn:Htrim; [congruence |].
  simpl. repeat split.
  intros q n _. exists (Z_toString n). repeat split.
  apply parse_decimal_toString.
Qed.

Lemma onSearch_request_witness :
  let a := set_query (js "  châteaux de la Loire ") initial in
  requests (snd (onSearch a)) = [search (trim (query a)) (Some 10%Z)]
  /\ get_params (search (trim (query a)) (Some 10%Z))
     = [ (js "q", trim (query a)); (js "limit", js "10") ]
  /\ forall (q : jsstring) (n : Z),
       is_safe_integer n ->
       exists numeral : jsstring,
         get_params (search q (Some n))
         = [ (js "q", q); (js "limit", numeral) ]
         /\ numeral = Z_toString n
         /\ parse_decimal numeral = Some n.
Proof.
  apply (onSearch_request
           (set_query (js "  châteaux de la Loire ") initial)).
  vm_compute. discriminate.
Defined.

(** The trimmed query of the example above, and the request it makes. *)
Example client_request_example :
  let a := set_query (js "  châteaux de la Loire ") initial in
  snd (onSearch a)
  = [ Subscribe
        {| get_url := js "http://127.0.0.1:8000/api/search";
           get_params := [ (js "q", js "châteaux de la Loire");
                           (js "limit", js "10") ];
           get_expects := SearchResponse_decl |} ]
  /\ isLoading (fst (onSearch a)) = true
  /\ errorMessage (fst (onSearch a)) = None
  /\ searchResults (fst (onSearch a)) = None.
Proof. vm_compute. repeat split. Qed.
End ClientClaims.

(* ================================================================== *)
(** * Properties of the core *)
(* ================================================================== *)

Section LimitAndEmptyQueries.
Import JS Core.

Lemma effective_limit_absent : effective_limit None = 10%Z.
Proof. reflexivity. Qed.

Lemma effective_limit_non_positive (n : Z) :
  (n <= 0)%Z -> effective_limit (Some n) = 10%Z.
Proof.
  intros Hn. unfold effective_limit.
  destruct (Z.ltb_spec 0 n); [lia | reflexivity].
Qed.

Lemma effective_limit_positive (n : Z) :
  (0 < n)%Z -> effective_limit (Some n) = n.
Proof.
  intros Hn. unfold effective_limit.
  destruct (Z.ltb_spec 0 n); [reflexivity | lia].
Qed.

Lemma effective_limit_is_positive (limit : option Z) :
  (0 < effective_limit limit)%Z.
Proof.
  destruct limit as [n |]; simpl; [| reflexivity].
  destruct (Z.ltb_spec 0 n); [assumption | reflexivity].
Qed.

(** [search] depends on the limit through [effective_limit] alone. *)
Lemma search_same_limit cfg st q (l1 l2 : option Z) :
  effective_limit l1 = effective_limit l2 ->
  search cfg st q l1 = search cfg st q l2.
Proof.
  intros H. unfold search, rank. now rewrite H.
Qed.

Lemma search_answers cfg st q limit :
  exists r,
    search cfg st q limit = Ok r
    /\ SearchOutput.query r = q
    /\ SearchOutput.processed_terms r = stems_of cfg q
    /\ SearchOutput.results r
       = map (to_result st) (rank st (stems_of cfg q) limit)
    /\ SearchOutput.total_results r = List.length (SearchOutput.results r).
Proof.
  unfold search. destruct (stems_of cfg q) as [| s rest] eqn:Hs.
  - eexists. split; [reflexivity |]. simpl. repeat split.
    unfold rank, ranking. simpl. now rewrite firstn_nil.
  - eexists. split; [reflexivity |]. simpl. repeat split.
    now rewrite length_map.
Qed.

(** Claim C4. A search without limit, or with a limit that is not
    positive, is the search with limit 10, and it answers rather than
    fails; a positive limit is the number of results kept. On the way
    there the client writes 10 for an absent limit and forwards a safe
    integer that is not positive as its numeral, which the engine reads by
    the same rule. *)
Theorem search_limit_default :
  forall cfg st (q : text),
    search cfg st q None = search cfg st q (Some 10%Z)
    /\ (forall n : Z, (n <= 0)%Z ->
          search cfg st q (Some n) = search cfg st q (Some 10%Z))
    /\ (forall limit : option Z, exists r, search cfg st q limit = Ok r)
    /\ (forall n : Z, (0 < n)%Z ->
          exists r,
            search cfg st q (Some n) = Ok r
            /\ SearchOutput.results r
               = map (to_result st)
                     (firstn (Z.to_nat n) (ranking st (stems_of cfg q))))
    /\ Frontend.Search.get_params (Frontend.Search.search q None)
       = [ (js "q", q); (js "limit", js "10") ]
    /\ (forall n : Z, is_safe_integer n -> (n <= 0)%Z ->
          exists numeral : jsstring,
            Frontend.Search.get_params (Frontend.Search.search q (Some n))
            = [ (js "q", q); (js "limit", numeral) ]
            /\ search cfg st q (parse_decimal numeral)
               = search cfg st q (Some 10%Z)).
Proof.
  intros cfg st q.
  assert (Hfall : forall n : Z, (n <= 0)%Z ->
            search cfg st q (Some n) = search cfg st q (Some 10%Z)).
  { intros n Hn. apply search_same_limit.
    now rewrite effective_limit_non_positive. }
  repeat split.
  - exact Hfall.
  - intros limit.
    destruct (search_answers cfg st q limit) as [r [Hr _]]. now exists r.
  - intros n Hn.
    destruct (search_answers cfg st q (Some n)) as [r [Hr [_ [_ [Hres _]]]]].
    exists r. split; [assumption |].
    rewrite Hres. unfold rank. now rewrite effective_limit_positive.
  - intros n _ Hn. exists (Z_toString n). split; [reflexivity |].
    rewrite parse_decimal_toString. now apply Hfall.
Qed.

Lemma search_limit_default_witness :
  search Sample.config Sample.store (js "loire") (Some (-3)%Z)
  = search Sample.config Sample.store (js "loire") (Some 10%Z).
Proof.
  apply (proj1 (proj2 (search_limit_default
                         Sample.config Sample.store (js "loire")))).
  lia.
Defined.

(** A text whose tokens are all too short, too long or stop words has no
    stems. *)
Lemma normalize_nothing_survives cfg (q : text) :
  Forall (fun token => length_ok cfg token = false
                       \/ is_stop_word cfg token = true)
         (map (lowercase cfg) (tokenize cfg q)) ->
  normalize cfg q = [].
Proof.
  unfold normalize. generalize (map (lowercase cfg) (tokenize cfg q)).
  intros tokens. generalize 0.
  induction tokens as [| token rest IH]; intros i Hall; [reflexivity |].
  inversion Hall as [| ? ? Htoken Hrest]; subst. simpl.
  destruct (length_ok cfg token) eqn:Hlen; simpl.
  - destruct Htoken as [Hshort | Hstop]; [discriminate |].
    rewrite Hstop. simpl. now apply IH.
  - now apply IH.
Qed.

(** Claim C5. A query whose normalization yields no term (as when every
    token is a stop word or too short) gets the empty answer:
    no results, total_results 0, processed_terms empty, and no error. *)
Theorem search_nothing_to_search :
  forall cfg st (q : text) (limit : option Z),
    (normalize cfg q = [] ->
     search cfg st q limit
     = Ok {| SearchOutput.query := q;
             SearchOutput.processed_terms := [];
             SearchOutput.total_results := 0;
             SearchOutput.results := [] |})
    /\ (Forall (fun token => length_ok cfg token = false
                             \/ is_stop_word cfg token = true)
               (map (lowercase cfg) (tokenize cfg q)) ->
        normalize cfg q = []).
Proof.
  intros cfg st q limit. split.
  - intros Hnone. unfold search, stems_of. now rewrite Hnone.
  - apply normalize_nothing_survives.
Qed.

Lemma search_nothing_to_search_witness :
  search Sample.config Sample.store (js "Les de la sont") (Some 5%Z)
  = Ok {| SearchOutput.query := js "Les de la sont";
          SearchOutput.processed_terms := [];
          SearchOutput.total_results := 0;
          SearchOutput.results := [] |}.
Proof.
  apply (proj1 (search_nothing_to_search
                  Sample.config Sample.store (js "Les de la sont")
                  (Some 5%Z))).
  reflexivity.
Defined.
End LimitAndEmptyQueries.

Section SortByFacts.
Import Core.
Variable A : Type.
Variable leb : A -> A -> bool.

Lemma insert_by_perm (x : A) (l : list A) :
  Permutation (insert_by leb x l) (x :: l).
Proof.
  induction l as [| y rest IH]; simpl.
  - apply Permutation_refl.
  - destruct (leb x y).
    + apply Permutation_refl.
    + eapply Permutation_trans; [apply perm_skip, IH | apply perm_swap].
Qed.

Lemma sort_by_perm (l : list A) : Permutation (sort_by leb l) l.
Proof.
  induction l as [| x rest IH]; simpl.
  - constructor.
  - eapply Permutation_trans; [apply insert_by_perm | now apply perm_skip].
Qed.

Hypothesis leb_total : forall a b, leb a b = true \/ leb b a = true.
Hypothesis leb_trans :
  forall a b c, leb a b = true -> leb b c = true -> leb a c = true.

Lemma insert_by_sorted (x : A) (l : list A) :
  StronglySorted (le_by leb) l -> StronglySorted (le_by leb) (insert_by leb x l).
Proof.
  induction 1 as [| y rest Hsorted IH Hall]; simpl.
  - constructor; constructor.
  - destruct (leb x y) eqn:Hxy.
    + constructor.
      * now constructor.
      * constructor; [assumption |].
        eapply Forall_impl; [| exact Hall].
        intros z Hyz. eapply leb_trans; eassumption.
    + constructor; [assumption |].
      assert (Hyx : le_by leb y x).
      { destruct (leb_total x y) as [H | H]; [congruence | exact H]. }
      eapply Permutation_Forall.
      * apply Permutation_sym, insert_by_perm.
      * now constructor.
Qed.

Lemma sort_by_sorted (l : list A) :
  StronglySorted (le_by leb) (sort_by leb l).
Proof.
  induction l as [| x rest IH]; simpl.
  - constructor.
  - now apply insert_by_sorted.
Qed.
End SortByFacts.

Section ListOrderFacts.
Variables A B : Type.

Lemma StronglySorted_map (f : A -> B) (R : B -> B -> Prop) (l : list A) :
  StronglySorted (fun a b => R (f a) (f b)) l ->
  StronglySorted R (map f l).
Proof.
  induction 1 as [| x rest Hsorted IH Hall]; simpl; constructor.
  - assumption.
  - rewrite Forall_map. exact Hall.
Qed.

Lemma firstn_incl (n : nat) (l : list A) (x : A) :
  In x (firstn n l) -> In x l.
Proof.
  revert n. induction l as [| y rest IH]; intros n Hin.
  - now rewrite firstn_nil in Hin.
  - destruct n as [| n]; simpl in Hin; [contradiction |].
    destruct Hin as [Heq | Hin]; [now left | right; eauto].
Qed.

Lemma StronglySorted_firstn (R : A -> A -> Prop) (n : nat) (l : list A) :
  StronglySorted R l -> StronglySorted R (firstn n l).
Proof.
  intros Hsorted. revert n.
  induction Hsorted as [| x rest Hsorted IH Hall]; intros n.
  - rewrite firstn_nil. constructor.
  - destruct n as [| n]; simpl; constructor.
    + apply IH.
    + rewrite Forall_forall in *. intros y Hy.
      apply Hall. eapply firstn_incl. exact Hy.
Qed.

(** In a sorted list without repeated keys, related elements have
    different keys. *)
Lemma StronglySorted_distinct_keys
      (key : A -> nat) (R : A -> A -> Prop) (l : list A) :
  NoDup (map key l) ->
  StronglySorted R l ->
  StronglySorted (fun a b => R a b /\ key a <> key b) l.
Proof.
  intros Hnodup Hsorted.
  induction Hsorted as [| x rest Hsorted IH Hall]; constructor.
  - apply IH. now inversion Hnodup.
  - simpl in Hnodup. inversion Hnodup as [| ? ? Hnotin _]; subst.
    rewrite Forall_forall in *. intros y Hy. split; [now apply Hall |].
    intros Heq. apply Hnotin. rewrite Heq. now apply in_map.
Qed.
(** Two sorted arrangements of the same elements coincide when the order
    tells any two of them apart. *)
Lemma sorted_perm_unique (R : A -> A -> Prop) (l1 l2 : list A) :
  (forall a b, In a l1 -> In b l1 -> R a b -> R b a -> a = b) ->
  StronglySorted R l1 -> StronglySorted R l2 ->
  Permutation l1 l2 -> l1 = l2.
Proof.
  revert l2. induction l1 as [| x rest IH]; intros l2 Hanti H1 H2 Hperm.
  - apply Permutation_nil in Hperm. now subst.
  - destruct l2 as [| y rest2].
    { apply Permutation_sym, Permutation_nil in Hperm. discriminate. }
    inversion H1 as [| ? ? Hs1 Hall1]; subst.
    inversion H2 as [| ? ? Hs2 Hall2]; subst.
    assert (Hxy : x = y).
    { assert (Hy : In y (x :: rest)).
      { eapply Permutation_in; [apply Permutation_sym, Hperm | now left]. }
      assert (Hx : In x (y :: rest2)).
      { eapply Permutation_in; [apply Hperm | now left]. }
      destruct Hy as [Hy | Hy]; [assumption |].
      destruct Hx as [Hx | Hx]; [now symmetry |].
      rewrite Forall_forall in Hall1, Hall2.
      apply Hanti; [now left | now right | now apply Hall1 | now apply Hall2]. }
    subst y. f_equal.
    apply IH; try assumption.
    + intros a b Ha Hb. apply Hanti; now right.
    + eapply Permutation_cons_inv; eassumption.
Qed.

Lemma filter_perm (f : A -> bool) (l l' : list A) :
  Permutation l l' -> Permutation (filter f l) (filter f l').
Proof.
  induction 1 as [| x l l' _ IH | x y l | l l' l'' _ IH1 _ IH2]; simpl.
  - constructor.
  - destruct (f x); [now constructor | assumption].
  - destruct (f x), (f y); try apply Permutation_refl. apply perm_swap.
  - eapply Permutation_trans; eassumption.
Qed.

Lemma flat_map_perm_pointwise (f g : A -> list B) (l : list A) :
  (forall x, Permutation (f x) (g x)) ->
  Permutation (flat_map f l) (flat_map g l).
Proof.
  intros Hfg. induction l as [| x rest IH]; simpl.
  - constructor.
  - now apply Permutation_app.
Qed.
End ListOrderFacts.

Section RankingFacts.
Import Core.
Local Open Scope R_scope.

Lemma ranks_before_total (a b : ScoredResult.t) :
  ranks_before a b = true \/ ranks_before b a = true.
Proof.
  unfold ranks_before.
  destruct (Rlt_dec (ScoredResult.score b) (ScoredResult.score a));
    [now left |].
  destruct (Rlt_dec (ScoredResult.score a) (ScoredResult.score b));
    [now right |].
  destruct (Nat.leb_spec (ScoredResult.doc_id a) (ScoredResult.doc_id b));
    [now left | right].
  apply Nat.leb_le. lia.
Qed.

Lemma ranks_before_spec (a b : ScoredResult.t) :
  ranks_before a b = true <->
  ScoredResult.score a > ScoredResult.score b
  \/ (ScoredResult.score a = ScoredResult.score b
      /\ (ScoredResult.doc_id a <= ScoredResult.doc_id b)%nat).
Proof.
  unfold ranks_before.
  destruct (Rlt_dec (ScoredResult.score b) (ScoredResult.score a)) as [H1 | H1].
  { split; [intros _; now left | reflexivity]. }
  destruct (Rlt_dec (ScoredResult.score a) (ScoredResult.score b)) as [H2 | H2].
  { split; [discriminate |]. intros [H | [H _]]; lra. }
  rewrite Nat.leb_le. split.
  - intros Hle. right. split; [lra | assumption].
  - intros [H | [_ H]]; [lra | assumption].
Qed.

Lemma ranks_before_trans (a b c : ScoredResult.t) :
  ranks_before a b = true -> ranks_before b c = true ->
  ranks_before a c = true.
Proof.
  rewrite !ranks_before_spec.
  intros [Hab | [Hab Hab']] [Hbc | [Hbc Hbc']].
  - left. lra.
  - left. lra.
  - left. lra.
  - right. split; [lra | lia].
Qed.

Lemma sum_weights_app (l1 l2 : list R) :
  sum_weights (l1 ++ l2) = sum_weights l1 + sum_weights l2.
Proof.
  unfold sum_weights. induction l1 as [| w rest IH]; simpl.
  - lra.
  - rewrite IH. lra.
Qed.

Lemma add_match_ids d w s acc (x : nat) :
  In x (ids (add_match d w s acc)) <-> x = d \/ In x (ids acc).
Proof.
  induction acc as [| r rest IH]; simpl.
  - intuition.
  - destruct (Nat.eqb_spec (ScoredResult.doc_id r) d) as [Heq | Hne]; simpl.
    + rewrite Heq. intuition.
    + rewrite IH. intuition.
Qed.

Lemma add_match_NoDup d w s acc :
  NoDup (ids acc) -> NoDup (ids (add_match d w s acc)).
Proof.
  induction acc as [| r rest IH]; simpl; intros Hnodup.
  - constructor; [intros [] | constructor].
  - inversion Hnodup as [| ? ? Hnotin Hrest]; subst.
    destruct (Nat.eqb_spec (ScoredResult.doc_id r) d) as [Heq | Hne]; simpl.
    + rewrite <- Heq. now constructor.
    + constructor; [| now apply IH].
      fold (ids (add_match d w s rest)). rewrite add_match_ids.
      intros [H | H]; [now apply Hne | now apply Hnotin].
Qed.

Lemma add_match_score d w s acc (x : nat) :
  score_of x (add_match d w s acc)
  = if (x =? d)%nat then score_of x acc + w else score_of x acc.
Proof.
  unfold score_of. induction acc as [| r rest IH]; simpl.
  - rewrite (Nat.eqb_sym d x). destruct (x =? d)%nat; simpl; lra.
  - destruct (Nat.eqb_spec (ScoredResult.doc_id r) d) as [Heq | Hne]; simpl.
    + rewrite Heq, (Nat.eqb_sym d x).
      destruct (x =? d)%nat; simpl; reflexivity.
    + destruct (Nat.eqb_spec (ScoredResult.doc_id r) x) as [Hx | Hx].
      * destruct (Nat.eqb_spec x d); [congruence | reflexivity].
      * exact IH.
Qed.

Lemma feed_score s ps acc (x : nat) :
  score_of x (feed s ps acc)
  = score_of x acc + sum_weights (weights_for x ps).
Proof.
  revert acc. induction ps as [| p rest IH]; intros acc; simpl.
  - unfold weights_for, sum_weights. simpl. lra.
  - unfold feed in *. simpl. rewrite IH, add_match_score.
    unfold weights_for. simpl. rewrite (Nat.eqb_sym x).
    destruct (Posting.doc_id p =? x)%nat; simpl; lra.
Qed.

Lemma feed_ids s ps acc (x : nat) :
  In x (ids (feed s ps acc)) <->
  In x (ids acc) \/ In x (map Posting.doc_id ps).
Proof.
  revert acc. induction ps as [| p rest IH]; intros acc; simpl.
  - intuition.
  - unfold feed in *. simpl. rewrite IH, add_match_ids. intuition.
Qed.

Lemma feed_NoDup s ps acc :
  NoDup (ids acc) -> NoDup (ids (feed s ps acc)).
Proof.
  revert acc. induction ps as [| p rest IH]; intros acc Hnodup; simpl.
  - assumption.
  - apply IH. now apply add_match_NoDup.
Qed.

Lemma matched_weights_cons st s stems d :
  matched_weights st (s :: stems) d
  = (weights_for d (stem_postings st s) ++ matched_weights st stems d)%list.
Proof.
  unfold matched_weights, weights_for. simpl.
  now rewrite filter_app, map_app.
Qed.

Lemma fold_add_stem_score st stems acc (x : nat) :
  score_of x (fold_left (add_stem st) stems acc)
  = score_of x acc + sum_weights (matched_weights st stems x).
Proof.
  revert acc. induction stems as [| s rest IH]; intros acc; simpl.
  - unfold matched_weights, sum_weights. simpl. lra.
  - rewrite IH. unfold add_stem. fold (feed s (stem_postings st s) acc).
    rewrite feed_score, matched_weights_cons, sum_weights_app. lra.
Qed.

Lemma fold_add_stem_ids st stems acc (x : nat) :
  In x (ids (fold_left (add_stem st) stems acc)) <->
  In x (ids acc)
  \/ In x (map Posting.doc_id (flat_map (stem_postings st) stems)).
Proof.
  revert acc. induction stems as [| s rest IH]; intros acc; simpl.
  - intuition.
  - rewrite IH. unfold add_stem. fold (feed s (stem_postings st s) acc).
    rewrite feed_ids, map_app, in_app_iff. intuition.
Qed.

Lemma fold_add_stem_NoDup st stems acc :
  NoDup (ids acc) -> NoDup (ids (fold_left (add_stem st) stems acc)).
Proof.
  revert acc. induction stems as [| s rest IH]; intros acc Hnodup; simpl.
  - assumption.
  - apply IH. unfold add_stem. fold (feed s (stem_postings st s) acc).
    now apply feed_NoDup.
Qed.

Lemma aggregate_NoDup st stems : NoDup (ids (aggregate st stems)).
Proof. apply fold_add_stem_NoDup. constructor. Qed.

Lemma score_of_member acc r :
  NoDup (ids acc) -> In r acc ->
  score_of (ScoredResult.doc_id r) acc = ScoredResult.score r.
Proof.
  unfold score_of. induction acc as [| r0 rest IH]; simpl; intros Hnodup Hin.
  - contradiction.
  - inversion Hnodup as [| ? ? Hnotin Hrest]; subst.
    destruct Hin as [Heq | Hin].
    + subst. now rewrite Nat.eqb_refl.
    + destruct (Nat.eqb_spec (ScoredResult.doc_id r0) (ScoredResult.doc_id r))
        as [Heq | Hne].
      * exfalso. apply Hnotin. rewrite Heq. now apply in_map.
      * now apply IH.
Qed.

(** Step 4: every entry holds the sum of the weights of the query stems'
    postings in its document, and there is at least one such posting. *)
Lemma aggregate_scores st stems r :
  In r (aggregate st stems) ->
  ScoredResult.score r
  = sum_weights (matched_weights st stems (ScoredResult.doc_id r))
  /\ matched_weights st stems (ScoredResult.doc_id r) <> [].
Proof.
  intros Hin. split.
  - rewrite <- (@score_of_member (aggregate st stems) r (aggregate_NoDup st stems) Hin).
    unfold aggregate. rewrite fold_add_stem_score.
    unfold score_of. simpl. lra.
  - assert (Hid : In (ScoredResult.doc_id r) (ids (aggregate st stems))).
    { now apply in_map. }
    unfold aggregate in Hid. apply fold_add_stem_ids in Hid.
    destruct Hid as [[] | Hid].
    apply in_map_iff in Hid. destruct Hid as [p [Hp Hin']].
    unfold matched_weights. intros Hnil.
    apply map_eq_nil in Hnil.
    assert (Hf : In p (filter (fun p => (Posting.doc_id p =? ScoredResult.doc_id r)%nat)
                              (flat_map (stem_postings st) stems))).
    { apply filter_In. split; [assumption | now apply Nat.eqb_eq]. }
    rewrite Hnil in Hf. contradiction.
Qed.

Lemma ranking_perm st stems :
  Permutation (ranking st stems) (aggregate st (distinct stems)).
Proof. apply sort_by_perm. Qed.

Lemma ranking_NoDup st stems : NoDup (ids (ranking st stems)).
Proof.
  eapply Permutation_NoDup.
  - apply Permutation_sym, Permutation_map, ranking_perm.
  - apply aggregate_NoDup.
Qed.

(** Step 5 on the engine's own results: strictly by descending score,
    then by ascending document. *)
Lemma ranking_sorted st stems :
  StronglySorted
    (fun a b =>
       ScoredResult.score a > ScoredResult.score b
       \/ (ScoredResult.score a = ScoredResult.score b
           /\ (ScoredResult.doc_id a < ScoredResult.doc_id b)%nat))
    (ranking st stems).
Proof.
  pose proof (sort_by_sorted ranks_before ranks_before_total
                ranks_before_trans (aggregate st (distinct stems))) as Hs.
  apply (StronglySorted_distinct_keys ScoredResult.doc_id
           (ranking_NoDup st stems)) in Hs.
  eapply StronglySorted_ind with (P := fun l => StronglySorted _ l);
    [constructor | | exact Hs].
  intros a l _ IH Hall. constructor; [exact IH |].
  eapply Forall_impl; [| exact Hall].
  intros b [Hle Hne]. simpl in Hle. apply ranks_before_spec in Hle.
  destruct Hle as [Hgt | [Heq Hle]]; [now left |].
  right. split; [assumption | lia].
Qed.
End RankingFacts.

Section SearchRanked.
Import Core.
Local Open Scope R_scope.

(** Claim C6. The results of a search are in order of descending
    aggregate score, ties in order of ascending doc_id; there are at most
    as many as the limit in force; and the score of each is the sum of
    the tf_idf_score of the postings that the distinct query stems have
    in its document, of which there is at least one. *)
Theorem search_results_ranked :
  forall cfg st (q : text) (limit : option Z),
    exists r,
      search cfg st q limit = Ok r
      /\ StronglySorted ranked_before (SearchOutput.results r)
      /\ (List.length (SearchOutput.results r)
          <= Z.to_nat (effective_limit limit))%nat
      /\ Forall
           (fun x =>
              SearchResult.score x
              = sum_weights
                  (matched_weights st (distinct (stems_of cfg q))
                                   (SearchResult.doc_id x))
              /\ matched_weights st (distinct (stems_of cfg q))
                                 (SearchResult.doc_id x) <> [])
           (SearchOutput.results r).
Proof.
  intros cfg st q limit.
  destruct (search_answers cfg st q limit) as [r [Hr [_ [_ [Hres _]]]]].
  exists r. split; [assumption |]. rewrite Hres. unfold rank.
  repeat split.
  - apply StronglySorted_map, StronglySorted_firstn.
    unfold ranked_before. simpl. apply ranking_sorted.
  - rewrite length_map. apply firstn_le_length.
  - rewrite Forall_map, Forall_forall. intros x Hx. simpl.
    apply aggregate_scores.
    eapply Permutation_in; [apply ranking_perm |].
    eapply firstn_incl. exact Hx.
Qed.
End SearchRanked.

Section BuildFacts.
Import Core.
Variable cfg : LangConfig.
Variable hash : text -> N.

Lemma text_eqb_eq (a b : text) : text_eqb a b = true <-> a = b.
Proof.
  unfold text_eqb, JS.jsstring_eqb.
  destruct (list_eq_dec N.eq_dec a b); split; intros H; congruence.
Qed.

Lemma same_key_same_element (A B : Type) (key : A -> B) (l : list A) (a b : A) :
  NoDup (map key l) -> In a l -> In b l -> key a = key b -> a = b.
Proof.
  induction l as [| x rest IH]; simpl; intros Hnodup Ha Hb Hkey.
  - contradiction.
  - inversion Hnodup as [| ? ? Hnotin Hrest]; subst.
    destruct Ha as [-> | Ha], Hb as [-> | Hb].
    + reflexivity.
    + exfalso. apply Hnotin. rewrite Hkey. now apply in_map.
    + exfalso. apply Hnotin. rewrite <- Hkey. now apply in_map.
    + now apply IH.
Qed.

Lemma postings_of_app (id : nat) (ps qs : list Posting.t) :
  postings_of id (ps ++ qs) = postings_of id ps ++ postings_of id qs.
Proof. apply filter_app. Qed.

Lemma postings_of_none (id : nat) (ps : list Posting.t) :
  ~ In id (map Posting.term_id ps) -> postings_of id ps = [].
Proof.
  induction ps as [| p rest IH]; simpl; intros Hnotin; [reflexivity |].
  destruct (Nat.eqb_spec (Posting.term_id p) id) as [Heq | Hne].
  - exfalso. apply Hnotin. now left.
  - apply IH. intros Hin. apply Hnotin. now right.
Qed.

Lemma postings_of_split (id : nat) (f : Posting.t -> bool) (ps : list Posting.t) :
  List.length (postings_of id ps)
  = List.length (postings_of id (filter f ps))
    + List.length (postings_of id (filter (fun p => negb (f p)) ps)).
Proof.
  induction ps as [| p rest IH]; simpl; [reflexivity |].
  destruct (f p); simpl;
    destruct (Posting.term_id p =? id); simpl; lia.
Qed.

Lemma postings_of_map (id : nat) (g : Posting.t -> Posting.t) (ps : list Posting.t) :
  (forall p, Posting.term_id (g p) = Posting.term_id p) ->
  List.length (postings_of id (map g ps)) = List.length (postings_of id ps).
Proof.
  intros Hg. induction ps as [| p rest IH]; simpl; [reflexivity |].
  rewrite Hg. destruct (Posting.term_id p =? id); simpl; lia.
Qed.

(** ** The term table under an upsert *)

Lemma upsert_term_numbered table s count :
  map Term.term_id table = seq 1 (List.length table) ->
  map Term.term_id (fst (upsert_term table s count))
  = seq 1 (List.length (fst (upsert_term table s count))).
Proof.
  intros Hids. unfold upsert_term.
  destruct (find (fun t => text_eqb (Term.stem t) s) table) as [found |];
    simpl.
  - rewrite length_map, map_map.
    rewrite <- Hids. apply map_ext.
    intros t. now destruct (text_eqb (Term.stem t) s).
  - rewrite map_app, length_app, Hids. simpl.
    rewrite Nat.add_1_r, seq_S. reflexivity.
Qed.

Lemma upsert_term_stems table s count :
  NoDup (map Term.stem table) ->
  NoDup (map Term.stem (fst (upsert_term table s count))).
Proof.
  intros Hstems. unfold upsert_term.
  destruct (find (fun t => text_eqb (Term.stem t) s) table) as [found |]
    eqn:Hfind; simpl.
  - rewrite map_map.
    erewrite map_ext; [exact Hstems |].
    intros t. now destruct (text_eqb (Term.stem t) s).
  - rewrite map_app. simpl.
    apply NoDup_app_remove_l with (l := []). simpl.
    apply Permutation_NoDup with (l := s :: map Term.stem table).
    + apply Permutation_cons_append.
    + constructor; [| assumption].
      intros Hin. apply in_map_iff in Hin. destruct Hin as [t [Hs Ht]].
      apply (find_none _ _ Hfind) in Ht.
      rewrite Hs in Ht. simpl in Ht.
      assert (H : text_eqb s s = true) by now apply text_eqb_eq.
      congruence.
Qed.

Lemma upsert_term_ids table s count (x : nat) :
  In x (map Term.term_id table) ->
  In x (map Term.term_id (fst (upsert_term table s count))).
Proof.
  unfold upsert_term.
  destruct (find (fun t => text_eqb (Term.stem t) s) table) as [found |];
    simpl.
  - rewrite map_map. intros Hin.
    erewrite map_ext; [exact Hin |].
    intros t'. now destruct (text_eqb (Term.stem t') s).
  - rewrite map_app, in_app_iff. now left.
Qed.

Lemma upsert_term_id table s count :
  In (snd (upsert_term table s count))
     (map Term.term_id (fst (upsert_term table s count))).
Proof.
  pose proof (@upsert_term_ids table s count) as Hkeep.
  unfold upsert_term in *.
  destruct (find (fun t => text_eqb (Term.stem t) s) table) as [found |]
    eqn:Hfind; simpl in *.
  - apply Hkeep. apply find_some in Hfind. apply in_map. tauto.
  - rewrite map_app, in_app_iff. right. now left.
Qed.

(** After an upsert and the posting that goes with it, every term still
    counts its postings. *)
Lemma upsert_term_counts table s count (ps : list Posting.t) (p : Posting.t) :
  map Term.term_id table = seq 1 (List.length table) ->
  NoDup (map Term.stem table) ->
  Forall (fun q => In (Posting.term_id q) (map Term.term_id table)) ps ->
  Forall (fun t => Term.document_frequency t
                   = List.length (postings_of (Term.term_id t) ps)) table ->
  Posting.term_id p = snd (upsert_term table s count) ->
  Forall (fun t => Term.document_frequency t
                   = List.length (postings_of (Term.term_id t) (ps ++ [p])))
         (fst (upsert_term table s count)).
Proof.
  intros Hids Hstems Hps Hcount Hp.
  assert (Hnodup : NoDup (map Term.term_id table)).
  { rewrite Hids. apply seq_NoDup. }
  unfold upsert_term in *.
  destruct (find (fun t => text_eqb (Term.stem t) s) table) as [found |]
    eqn:Hfind; simpl in *.
  - apply find_some in Hfind. destruct Hfind as [Hfound Hs].
    apply text_eqb_eq in Hs.
    rewrite Forall_map. rewrite Forall_forall in *. intros t Ht.
    rewrite postings_of_app, length_app. simpl.
    destruct (text_eqb (Term.stem t) s) eqn:Hts.
    + apply text_eqb_eq in Hts.
      assert (t = found).
      { apply (same_key_same_element Term.stem table); congruence. }
      subst t. unfold bump. simpl.
      rewrite Hp, Nat.eqb_refl. simpl. rewrite (Hcount found Hfound). lia.
    + destruct (Nat.eqb_spec (Posting.term_id p) (Term.term_id t)) as [Heq | Hne].
      * assert (t = found).
        { apply (same_key_same_element Term.term_id table); congruence. }
        subst t. apply text_eqb_eq in Hs. congruence.
      * simpl. rewrite (Hcount t Ht). lia.
  - apply Forall_app. split.
    + rewrite Forall_forall in *. intros t Ht.
      rewrite postings_of_app, length_app. simpl.
      destruct (Nat.eqb_spec (Posting.term_id p) (Term.term_id t)) as [Heq | Hne].
      * exfalso. assert (Hin : In (Term.term_id t) (seq 1 (List.length table))).
        { rewrite <- Hids. now apply in_map. }
        apply in_seq in Hin. lia.
      * simpl. rewrite (Hcount t Ht). lia.
    + constructor; [| constructor]. simpl.
      rewrite postings_of_app, length_app. simpl.
      rewrite Hp, Nat.eqb_refl. simpl.
      rewrite postings_of_none; [reflexivity |].
      intros Hin. apply in_map_iff in Hin. destruct Hin as [q [Hq Hqin]].
      rewrite Forall_forall in Hps. apply Hps in Hqin.
      rewrite Hq, Hids in Hqin. apply in_seq in Hqin. lia.
Qed.

(** ** The store under the steps of a build *)

Lemma write_entry_documents doc st e :
  documents (write_entry doc st e) = documents st.
Proof.
  unfold write_entry.
  now destruct (upsert_term (terms st) (Entry.stem e) (Entry.count e)).
Qed.

Lemma write_entry_consistent doc st e :
  In doc (map Document.doc_id (documents st)) ->
  consistent st -> consistent (write_entry doc st e).
Proof.
  intros Hdoc [Hids [Hstems [Hpost Hcount]]]. unfold write_entry.
  pose proof (@upsert_term_numbered (terms st) (Entry.stem e) (Entry.count e) Hids)
    as Hids'.
  pose proof (@upsert_term_stems (terms st) (Entry.stem e) (Entry.count e) Hstems)
    as Hstems'.
  pose proof (@upsert_term_ids (terms st) (Entry.stem e) (Entry.count e)) as Hkeep.
  pose proof (@upsert_term_id (terms st) (Entry.stem e) (Entry.count e)) as Hid.
  assert (Hpost' : Forall (fun q => In (Posting.term_id q)
                                       (map Term.term_id (terms st)))
                          (postings st)).
  { eapply Forall_impl; [| exact Hpost]. intros q Hq. apply Hq. }
  pose proof (fun p =>
                @upsert_term_counts (terms st) (Entry.stem e) (Entry.count e)
                                    (postings st) p Hids Hstems Hpost' Hcount)
    as Hcount'.
  destruct (upsert_term (terms st) (Entry.stem e) (Entry.count e))
    as [table id]; simpl in *.
  repeat split; simpl; try assumption.
  - apply Forall_app. split.
    + eapply Forall_impl; [| exact Hpost].
      intros p [Ht Hd]. split; [now apply Hkeep | assumption].
    + constructor; [| constructor]. simpl. now split.
  - apply Hcount'. reflexivity.
Qed.

Lemma write_entries_consistent doc table st :
  In doc (map Document.doc_id (documents st)) ->
  consistent st -> consistent (fold_left (write_entry doc) table st).
Proof.
  revert st. induction table as [| e rest IH]; intros st Hdoc Hc; simpl.
  - assumption.
  - apply IH.
    + now rewrite write_entry_documents.
    + now apply write_entry_consistent.
Qed.

Lemma index_as_consistent id st raw :
  consistent st -> consistent (index_as cfg hash id st raw).
Proof.
  intros [Hids [Hstems [Hpost Hcount]]]. unfold index_as.
  apply write_entries_consistent; simpl.
  - rewrite map_app, in_app_iff. right. now left.
  - repeat split; simpl; try assumption.
    eapply Forall_impl; [| exact Hpost].
    intros p [Ht Hd]. split; [assumption |].
    rewrite map_app, in_app_iff. now left.
Qed.

Lemma forget_consistent st (h : N) :
  consistent st -> consistent (forget st h).
Proof.
  intros [Hids [Hstems [Hpost Hcount]]]. unfold forget.
  set (gone := fun d => N.eqb (Document.content_hash d) h).
  set (ids := map Document.doc_id (filter gone (documents st))).
  set (of_gone := fun p => existsb (Nat.eqb (Posting.doc_id p)) ids).
  repeat split; simpl.
  - rewrite length_map, map_map. exact Hids.
  - rewrite map_map. exact Hstems.
  - rewrite Forall_forall in *. intros p Hp.
    apply filter_In in Hp. destruct Hp as [Hp Hkept].
    destruct (Hpost p Hp) as [Ht Hd]. split.
    + rewrite map_map. exact Ht.
    + apply in_map_iff in Hd. destruct Hd as [d [Hid Hd]].
      apply in_map_iff. exists d. split; [assumption |].
      apply filter_In. split; [assumption |].
      change (negb (gone d) = true).
      destruct (gone d) eqn:Hgone; [| reflexivity].
      exfalso. apply negb_true_iff in Hkept.
      assert (Hex : of_gone p = true).
      { unfold of_gone. apply existsb_exists. exists (Document.doc_id d).
        split.
        - unfold ids. apply in_map. apply filter_In. now split.
        - rewrite Hid. apply Nat.eqb_refl. }
      unfold of_gone in Hex. congruence.
  - rewrite Forall_map. rewrite Forall_forall in *. intros t Ht.
    unfold release. simpl. rewrite (Hcount t Ht).
    pose proof (postings_of_split (Term.term_id t) of_gone (postings st))
      as Hsplit.
    change (fun p : Posting.t => negb (existsb (Nat.eqb (Posting.doc_id p)) ids))
      with (fun p : Posting.t => negb (of_gone p)).
    lia.
Qed.

Lemma index_document_consistent force st raw :
  consistent st -> consistent (index_document cfg hash force st raw).
Proof.
  intros Hc. unfold index_document.
  destruct (RawDocument.text raw) as [| c rest]; [assumption |].
  destruct (known_document st (hash (c :: rest))) as [prior |].
  - destruct force; [| assumption].
    now apply index_as_consistent, forget_consistent.
  - now apply index_as_consistent.
Qed.

Lemma index_documents_consistent force source st :
  consistent st ->
  consistent (fold_left (index_document cfg hash force) source st).
Proof.
  revert st. induction source as [| raw rest IH]; intros st Hc; simpl.
  - assumption.
  - apply IH. now apply index_document_consistent.
Qed.

Lemma weigh_keys st total p :
  Posting.term_id (weigh st total p) = Posting.term_id p
  /\ Posting.doc_id (weigh st total p) = Posting.doc_id p.
Proof.
  unfold weigh.
  destruct (get_term_by_id st (Posting.term_id p));
    destruct (get_document st (Posting.doc_id p)); split; reflexivity.
Qed.

Lemma compute_weights_consistent st :
  consistent st -> consistent (compute_weights cfg st).
Proof.
  intros [Hids [Hstems [Hpost Hcount]]]. unfold compute_weights.
  repeat split; simpl; try assumption.
  - rewrite Forall_map. eapply Forall_impl; [| exact Hpost].
    intros p Hp. cbv beta in Hp.
    destruct (weigh_keys st (List.length (documents st)) p) as [-> ->].
    exact Hp.
  - eapply Forall_impl; [| exact Hcount].
    intros t Ht. cbv beta in Ht. rewrite Ht. symmetry.
    apply postings_of_map. intros p. apply weigh_keys.
Qed.

Lemma build_consistent force prior source :
  consistent prior -> consistent (build cfg hash force prior source).
Proof.
  intros Hc. unfold build.
  now apply compute_weights_consistent, index_documents_consistent.
Qed.

Lemma builds_consistent runs st :
  consistent st -> consistent (builds cfg hash runs st).
Proof.
  revert st. induction runs as [| [force source] rest IH]; intros st Hc; simpl.
  - assumption.
  - apply IH. now apply build_consistent.
Qed.

Lemma empty_store_consistent : consistent (empty_store cfg).
Proof. repeat split; constructor. Qed.

Lemma get_term_by_id_found st (id : nat) :
  In id (map Term.term_id (terms st)) ->
  exists t, get_term_by_id st id = Some t
            /\ In t (terms st) /\ Term.term_id t = id.
Proof.
  intros Hin. unfold get_term_by_id.
  destruct (find (fun t => Term.term_id t =? id) (terms st)) as [t |] eqn:Hfind.
  - exists t. apply find_some in Hfind.
    destruct Hfind as [Ht Heq]. apply Nat.eqb_eq in Heq. auto.
  - exfalso. apply in_map_iff in Hin. destruct Hin as [t [Heq Ht]].
    apply (find_none _ _ Hfind) in Ht. rewrite Heq, Nat.eqb_refl in Ht.
    discriminate.
Qed.

Lemma get_document_found st (id : nat) :
  In id (map Document.doc_id (documents st)) ->
  exists d, get_document st id = Some d
            /\ In d (documents st) /\ Document.doc_id d = id.
Proof.
  intros Hin. unfold get_document.
  destruct (find (fun d => Document.doc_id d =? id) (documents st))
    as [d |] eqn:Hfind.
  - exists d. apply find_some in Hfind.
    destruct Hfind as [Hd Heq]. apply Nat.eqb_eq in Heq. auto.
  - exfalso. apply in_map_iff in Hin. destruct Hin as [d [Heq Hd]].
    apply (find_none _ _ Hfind) in Hd. rewrite Heq, Nat.eqb_refl in Hd.
    discriminate.
Qed.

(** Claim C8. After every build, forced or not, on the store that any
    earlier builds left: every posting has its term and its document in
    the store; the term's document_frequency is the number of its
    postings, so at least 1, and the quotient under the logarithm has a
    divisor other than zero; and the posting's tf_idf_score is
    term_frequency / term_count of the document multiplied by
    log (total_documents / document_frequency). *)
Theorem build_tf_idf :
  forall (runs : list (bool * list RawDocument.t)) (force : bool)
         (source : list RawDocument.t) (p : Posting.t),
    let st := build cfg hash force (builds cfg hash runs (empty_store cfg))
                    source in
    In p (postings st) ->
    exists t d,
      get_term_by_id st (Posting.term_id p) = Some t
      /\ get_document st (Posting.doc_id p) = Some d
      /\ Term.document_frequency t
         = List.length (postings_of (Posting.term_id p) (postings st))
      /\ 1 <= Term.document_frequency t
      /\ INR (Term.document_frequency t) <> 0%R
      /\ Posting.tf_idf_score p
         = ((INR (Posting.term_frequency p) / INR (Document.term_count d))
            * ln (INR (IndexMetadata.total_documents (metadata st))
                  / INR (Term.document_frequency t)))%R.
Proof.
  intros runs force source p st Hin. subst st. unfold build in *.
  set (counted := fold_left (index_document cfg hash force) source
                            (builds cfg hash runs (empty_store cfg))) in *.
  assert (Hc : consistent counted).
  { apply index_documents_consistent, builds_consistent,
      empty_store_consistent. }
  destruct Hc as [Hids [Hstems [Hpost Hcount]]].
  unfold compute_weights in Hin. simpl in Hin.
  apply in_map_iff in Hin. destruct Hin as [p0 [Hweigh Hp0]].
  rewrite Forall_forall in Hpost. destruct (Hpost p0 Hp0) as [Ht Hd].
  destruct (get_term_by_id_found counted _ Ht) as [t [Hgt [Htin Htid]]].
  destruct (get_document_found counted _ Hd) as [d [Hgd _]].
  rewrite Forall_forall in Hcount. pose proof (Hcount t Htin) as Hdf.
  assert (Hone : 1 <= Term.document_frequency t).
  { rewrite Hdf, Htid.
    assert (Hmine : In p0 (postings_of (Posting.term_id p0) (postings counted))).
    { apply filter_In. split; [assumption | apply Nat.eqb_refl]. }
    destruct (postings_of (Posting.term_id p0) (postings counted));
      [contradiction | simpl; lia]. }
  unfold weigh in Hweigh. rewrite Hgt, Hgd in Hweigh. subst p. simpl.
  exists t, d. unfold get_term_by_id, get_document, compute_weights. simpl.
  repeat split; try assumption.
  - rewrite Hdf, Htid. symmetry.
    apply postings_of_map. intros q. apply weigh_keys.
  - apply not_0_INR. lia.
Qed.
End BuildFacts.

Section BuildWitness.
Import Core.

Lemma build_tf_idf_witness :
  let st := build Sample.config Sample.checksum true
                  (builds Sample.config Sample.checksum
                          [(false, Sample.corpus)]
                          (empty_store Sample.config))
                  [Sample.doc_b] in
  exists t d,
    get_term_by_id st 2 = Some t
    /\ get_document st 2 = Some d
    /\ Term.document_frequency t
       = List.length (postings_of 2 (postings st))
    /\ 1 <= Term.document_frequency t
    /\ INR (Term.document_frequency t) <> 0%R
    /\ (INR 1 / INR 2 * ln (INR 2 / INR 2))%R
       = ((INR 1 / INR (Document.term_count d))
          * ln (INR (IndexMetadata.total_documents (metadata st))
                / INR (Term.document_frequency t)))%R.
Proof.
  apply (@build_tf_idf Sample.config Sample.checksum
                       [(false, Sample.corpus)] true [Sample.doc_b]
                       Sample.rebuilt_posting).
  vm_compute. do 3 right. left. reflexivity.
Defined.
End BuildWitness.

Section StoreOrder.
Import Core.
Local Open Scope R_scope.

Lemma sum_weights_perm (l l' : list R) :
  Permutation l l' -> sum_weights l = sum_weights l'.
Proof.
  unfold sum_weights.
  induction 1 as [| x l l' _ IH | x y l | l l' l'' _ IH1 _ IH2]; simpl; lra.
Qed.

Lemma stem_postings_perm st st' (s : text) :
  terms st = terms st' ->
  Permutation (postings st) (postings st') ->
  Permutation (stem_postings st s) (stem_postings st' s).
Proof.
  intros Hterms Hperm. unfold stem_postings, get_term. rewrite Hterms.
  destruct (find (fun t => text_eqb (Term.stem t) s) (terms st')) as [t |];
    [| constructor].
  unfold postings_for_term.
  eapply Permutation_trans; [apply sort_by_perm |].
  eapply Permutation_trans; [| apply Permutation_sym, sort_by_perm].
  now apply filter_perm.
Qed.

Lemma matched_weights_perm st st' stems (d : nat) :
  terms st = terms st' ->
  Permutation (postings st) (postings st') ->
  Permutation (matched_weights st stems d) (matched_weights st' stems d).
Proof.
  intros Hterms Hperm. unfold matched_weights.
  apply Permutation_map, filter_perm, flat_map_perm_pointwise.
  intros s. now apply stem_postings_perm.
Qed.

Lemma aggregate_ids st stems (d : nat) :
  In d (ids (aggregate st stems)) <->
  In d (map Posting.doc_id (flat_map (stem_postings st) stems)).
Proof.
  unfold aggregate. rewrite fold_add_stem_ids. simpl. tauto.
Qed.

Lemma to_result_same_documents st st' r r' :
  documents st = documents st' ->
  ScoredResult.doc_id r = ScoredResult.doc_id r' ->
  ScoredResult.score r = ScoredResult.score r' ->
  to_result st r = to_result st' r'.
Proof.
  intros Hdocs Hid Hscore. unfold to_result, get_document.
  now rewrite Hdocs, Hid, Hscore.
Qed.

(** A result over one store is a result over any store with the same
    documents and terms and the same postings in some order. *)
Lemma ranking_results_incl st st' stems (x : SearchResult.t) :
  documents st = documents st' ->
  terms st = terms st' ->
  Permutation (postings st) (postings st') ->
  In x (map (to_result st) (ranking st stems)) ->
  In x (map (to_result st') (ranking st' stems)).
Proof.
  intros Hdocs Hterms Hperm Hin.
  apply in_map_iff in Hin. destruct Hin as [r [Hx Hr]].
  apply (Permutation_in _ (ranking_perm st stems)) in Hr.
  assert (Hid : In (ScoredResult.doc_id r)
                   (ids (aggregate st' (distinct stems)))).
  { apply aggregate_ids.
    eapply Permutation_in.
    - apply Permutation_map, flat_map_perm_pointwise.
      intros s. apply stem_postings_perm; eassumption.
    - apply aggregate_ids. now apply in_map. }
  apply in_map_iff in Hid. destruct Hid as [r' [Hsame Hr']].
  apply in_map_iff. exists r'. split.
  - rewrite <- Hx. symmetry.
    apply to_result_same_documents; [assumption | congruence |].
    destruct (aggregate_scores _ _ _ Hr) as [Hs _].
    destruct (aggregate_scores _ _ _ Hr') as [Hs' _].
    rewrite Hs, Hs', Hsame.
    apply sum_weights_perm, matched_weights_perm; assumption.
  - eapply Permutation_in; [apply Permutation_sym, ranking_perm | exact Hr'].
Qed.

Lemma ranking_results_NoDup st stems :
  NoDup (map (to_result st) (ranking st stems)).
Proof.
  apply (NoDup_map_inv SearchResult.doc_id).
  rewrite map_map. simpl. apply ranking_NoDup.
Qed.

Lemma ranking_results_sorted st stems :
  StronglySorted ranked_before (map (to_result st) (ranking st stems)).
Proof.
  apply StronglySorted_map. unfold ranked_before. simpl.
  apply ranking_sorted.
Qed.

Lemma ranked_before_asym (a b : SearchResult.t) :
  ranked_before a b -> ranked_before b a -> a = b.
Proof.
  unfold ranked_before. intros [H1 | [H1 H1']] [H2 | [H2 H2']];
    exfalso; try lra; lia.
Qed.

Lemma ranking_results_same st st' stems :
  documents st = documents st' ->
  terms st = terms st' ->
  Permutation (postings st) (postings st') ->
  map (to_result st) (ranking st stems)
  = map (to_result st') (ranking st' stems).
Proof.
  intros Hdocs Hterms Hperm.
  apply sorted_perm_unique with (R := ranked_before).
  - intros a b _ _. apply ranked_before_asym.
  - apply ranking_results_sorted.
  - apply ranking_results_sorted.
  - apply NoDup_Permutation; try apply ranking_results_NoDup.
    intros x. split; apply ranking_results_incl;
      auto using Permutation_sym.
Qed.

(** Claim C7. The answer of a search is a function of the query text, the
    limit and the content of the store: two stores with the same
    documents and terms, and the same postings in whatever order they are
    held, give equal answers, the order of tied results included. In
    particular two runs on one store agree. *)
Theorem search_deterministic :
  forall cfg st st' (q : text) (limit : option Z),
    documents st = documents st' ->
    terms st = terms st' ->
    Permutation (postings st) (postings st') ->
    search cfg st q limit = search cfg st' q limit.
Proof.
  intros cfg st st' q limit Hdocs Hterms Hperm.
  destruct (search_answers cfg st q limit)
    as [r [Hr [Hq [Hp [Hres Htotal]]]]].
  destruct (search_answers cfg st' q limit)
    as [r' [Hr' [Hq' [Hp' [Hres' Htotal']]]]].
  rewrite Hr, Hr'. f_equal.
  assert (Hsame : SearchOutput.results r = SearchOutput.results r').
  { rewrite Hres, Hres'. unfold rank. rewrite <- !firstn_map.
    f_equal. now apply ranking_results_same. }
  destruct r, r'. simpl in *. subst. now rewrite Hsame.
Qed.

Lemma search_deterministic_witness :
  search Sample.config Sample.store (JS.js "Loire") (Some 3%Z)
  = search Sample.config Sample.reversed (JS.js "Loire") (Some 3%Z).
Proof.
  apply (search_deterministic Sample.config Sample.store Sample.reversed
                              (JS.js "Loire") (Some 3%Z)).
  - reflexivity.
  - reflexivity.
  - apply Permutation_rev.
Defined.
End StoreOrder.

(* ================================================================== *)
(** * The two-document example *)
(* ================================================================== *)

Section Examples.
Import JS Core.
Local Open Scope string_scope.

Lemma ln_same (x : R) : x <> 0%R -> ln (x / x) = 0%R.
Proof.
  intros Hx. replace (x / x)%R with 1%R by (field; assumption).
  apply ln_1.
Qed.

Example stems_of_doc_a :
  map ascii_string_of (stems_of Sample.config (js "Les CHATEAUX de la Loire"))
  = [ "chateau"; "loir" ].
Proof. reflexivity. Qed.

(** What the build makes of the two documents: four terms, of which only
    the stem of Loire is in both, and five postings. *)
Example sample_terms :
  map (fun t => (Term.term_id t, Term.stem t, Term.document_frequency t,
                 Term.total_occurrences t))
      (terms Sample.store)
  = [ (1, js "château", 1, 1); (2, js "loir", 2, 2);
      (3, js "magnifiqu", 1, 1); (4, js "fleuv", 1, 1) ].
Proof. reflexivity. Qed.

Example sample_postings :
  map (fun p => (Posting.term_id p, Posting.doc_id p,
                 Posting.term_frequency p, Posting.positions p))
      (postings Sample.store)
  = [ (1, 1, 1, [1]); (2, 1, 1, [4]); (3, 1, 1, [6]);
      (2, 2, 1, [1]); (4, 2, 1, [4]) ].
Proof. reflexivity. Qed.

(** Building again from the same documents, forced or not, leaves the
    tables as they were. *)
Example sample_rebuilds :
  let outline := fun st =>
    (map (fun d => (Document.doc_id d, Document.content_hash d,
                    Document.term_count d)) (documents st),
     map (fun t => (Term.term_id t, Term.stem t, Term.document_frequency t,
                    Term.total_occurrences t)) (terms st),
     map (fun p => (Posting.term_id p, Posting.doc_id p,
                    Posting.term_frequency p, Posting.positions p))
         (postings st)) in
  outline (build Sample.config Sample.checksum false Sample.store Sample.corpus)
  = outline Sample.store
  /\ outline (build Sample.config Sample.checksum true Sample.store
                    [Sample.doc_b])
     = outline Sample.store.
Proof. split; reflexivity. Qed.

Example sample_documents :
  map (fun d => (Document.doc_id d, Document.term_count d))
      (documents Sample.store)
  = [ (1, 3); (2, 2) ]
  /\ IndexMetadata.total_documents (metadata Sample.store) = 2.
Proof. split; reflexivity. Qed.

(** A stem that one document has: that document alone, with a positive
    score. *)
Example search_one_match :
  exists r,
    search Sample.config Sample.store (js "châteaux") None = Ok r
    /\ map SearchResult.doc_id (SearchOutput.results r) = [1]
    /\ SearchOutput.total_results r = 1
    /\ SearchOutput.processed_terms r = [js "château"]
    /\ Forall (fun x => (SearchResult.score x > 0)%R)
              (SearchOutput.results r).
Proof.
  eexists. split.
  - cbv -[Rplus Rmult Rdiv ln INR Rinv IZR Rlt_dec]. reflexivity.
  - simpl. repeat split. constructor; [| constructor]. simpl.
    assert (H : (0 < ln ((1 + 1) / 1))%R).
    { rewrite <- ln_1. apply ln_increasing; lra. }
    apply Rmult_lt_0_compat; [lra | assumption].
Qed.

(** A stem that both documents have weighs nothing in either, and the tie
    goes to the smaller doc_id. *)
Example search_tie :
  exists r,
    search Sample.config Sample.store (js "Loire") None = Ok r
    /\ map SearchResult.doc_id (SearchOutput.results r) = [1; 2]
    /\ map SearchResult.score (SearchOutput.results r) = [0%R; 0%R].
Proof.
  assert (H : ln (INR 2 / INR 2) = 0%R).
  { apply ln_same, not_0_INR. discriminate. }
  eexists. split.
  - cbv -[Rplus Rmult Rdiv ln INR Rinv IZR Rlt_dec]. rewrite !H.
    repeat (destruct (Rlt_dec _ _) as [Hlt | _]; [exfalso; lra |]).
    cbv -[Rplus Rmult Rdiv ln INR Rinv IZR Rlt_dec].
    repeat (destruct (Rlt_dec _ _) as [Hlt | _]; [exfalso; lra |]).
    reflexivity.
  - simpl. split; [reflexivity |]. repeat f_equal; lra.
Qed.

(** The same query cut to one result. *)
Example search_tie_limit_1 :
  exists r,
    search Sample.config Sample.store (js "Loire") (Some 1%Z) = Ok r
    /\ map SearchResult.doc_id (SearchOutput.results r) = [1]
    /\ SearchOutput.total_results r = 1.
Proof.
  assert (H : ln (INR 2 / INR 2) = 0%R).
  { apply ln_same, not_0_INR. discriminate. }
  eexists. split.
  - cbv -[Rplus Rmult Rdiv ln INR Rinv IZR Rlt_dec]. rewrite !H.
    repeat (destruct (Rlt_dec _ _) as [Hlt | _]; [exfalso; lra |]).
    cbv -[Rplus Rmult Rdiv ln INR Rinv IZR Rlt_dec].
    repeat (destruct (Rlt_dec _ _) as [Hlt | _]; [exfalso; lra |]).
    reflexivity.
  - simpl. split; reflexivity.
Qed.

(** A stem that no document has: no result, and the stem is reported. *)
Example search_absent_stem :
  search Sample.config Sample.store (js "zzz") None
  = Ok {| SearchOutput.query := js "zzz";
          SearchOutput.processed_terms := [js "zzz"];
          SearchOutput.total_results := 0;
          SearchOutput.results := [] |}.
Proof. cbv -[Rplus Rmult Rdiv ln INR Rinv IZR Rlt_dec]. reflexivity. Qed.
End Examples.

(* ================================================================== *)
(** * Further properties of the client *)
(* ================================================================== *)

(** ** [String.prototype.trim] *)
Section TrimFacts.
Import JS.

Lemma trim_start_split (s : jsstring) :
  exists pre, s = pre ++ trim_start s /\ forallb is_white_space pre = true.
Proof.
  induction s as [| c rest IH]; simpl.
  - exists []. split; reflexivity.
  - destruct (is_white_space c) eqn:Hc.
    + destruct IH as [pre [Heq Hpre]]. exists (c :: pre). split.
      * simpl. now rewrite <- Heq.
      * simpl. now rewrite Hc.
    + exists []. split; reflexivity.
Qed.

Lemma trim_start_head (s : jsstring) :
  match trim_start s with
  | [] => True
  | c :: _ => is_white_space c = false
  end.
Proof.
  induction s as [| c rest IH]; simpl; [exact I |].
  destruct (is_white_space c) eqn:Hc; [exact IH | exact Hc].
Qed.

Lemma trim_start_blank (s : jsstring) :
  falsy (trim_start s) = forallb is_white_space s.
Proof.
  induction s as [| c rest IH]; simpl; [reflexivity |].
  destruct (is_white_space c); [exact IH | reflexivity].
Qed.

Lemma trim_start_fixed (s : jsstring) :
  match s with [] => True | c :: _ => is_white_space c = false end ->
  trim_start s = s.
Proof.
  destruct s as [| c rest]; simpl; [reflexivity |].
  now intros ->.
Qed.

Lemma trim_start_snoc (l : jsstring) (c : N) :
  is_white_space c = false ->
  trim_start (l ++ [c]) = trim_start l ++ [c].
Proof.
  intros Hc. induction l as [| d rest IH]; simpl.
  - now rewrite Hc.
  - destruct (is_white_space d); [exact IH | reflexivity].
Qed.

Lemma trim_end_split (s : jsstring) :
  exists post, s = trim_end s ++ post /\ forallb is_white_space post = true.
Proof.
  unfold trim_end. destruct (trim_start_split (rev s)) as [pre [Heq Hpre]].
  exists (rev pre). split.
  - rewrite <- rev_app_distr, <- Heq. now rewrite rev_involutive.
  - rewrite forallb_forall in *. intros x Hx. apply Hpre. now apply in_rev.
Qed.

Lemma trim_end_last (s : jsstring) :
  match rev (trim_end s) with
  | [] => True
  | c :: _ => is_white_space c = false
  end.
Proof.
  unfold trim_end. rewrite rev_involutive. apply trim_start_head.
Qed.

Lemma trim_end_head (c : N) (rest : jsstring) :
  is_white_space c = false ->
  exists rest', trim_end (c :: rest) = c :: rest'.
Proof.
  intros Hc. unfold trim_end. simpl.
  rewrite trim_start_snoc by assumption.
  rewrite rev_app_distr. simpl. eauto.
Qed.

Lemma trim_end_blank (s : jsstring) :
  falsy (trim_end s) = forallb is_white_space s.
Proof.
  unfold trim_end.
  transitivity (falsy (trim_start (rev s))).
  - destruct (trim_start (rev s)) as [| c r]; simpl; [reflexivity |].
    destruct (rev r ++ [c]) eqn:H; [| reflexivity].
    apply app_eq_nil in H. destruct H. discriminate.
  - rewrite trim_start_blank.
    apply eq_true_iff_eq. rewrite !forallb_forall.
    split; intros H x Hx; apply H; [now rewrite <- in_rev | now rewrite <- in_rev in Hx].
Qed.

Lemma trim_blank (s : jsstring) :
  falsy (trim s) = forallb is_white_space s.
Proof.
  unfold trim. rewrite trim_end_blank.
  destruct (trim_start_split s) as [pre [Heq Hpre]].
  rewrite Heq at 2. rewrite forallb_app, Hpre. reflexivity.
Qed.

Lemma trim_split (s : jsstring) :
  exists pre post,
    s = pre ++ trim s ++ post
    /\ forallb is_white_space pre = true
    /\ forallb is_white_space post = true.
Proof.
  destruct (trim_start_split s) as [pre [Heq Hpre]].
  destruct (trim_end_split (trim_start s)) as [post [Heq' Hpost]].
  exists pre, post. unfold trim. rewrite <- Heq'. auto.
Qed.

Lemma trim_ends (s : jsstring) :
  match trim s with [] => True | c :: _ => is_white_space c = false end
  /\ match rev (trim s) with [] => True | c :: _ => is_white_space c = false end.
Proof.
  unfold trim. split; [| apply trim_end_last].
  pose proof (trim_start_head s) as Hhead.
  destruct (trim_start s) as [| c rest]; [exact I |].
  destruct (@trim_end_head c rest Hhead) as [rest' ->]. exact Hhead.
Qed.

Lemma trim_end_fixed (s : jsstring) :
  match rev s with [] => True | c :: _ => is_white_space c = false end ->
  trim_end s = s.
Proof.
  intros H. unfold trim_end. rewrite trim_start_fixed by assumption.
  apply rev_involutive.
Qed.

Lemma trim_fixed (s : jsstring) :
  match s with [] => True | c :: _ => is_white_space c = false end ->
  match rev s with [] => True | c :: _ => is_white_space c = false end ->
  trim s = s.
Proof.
  intros Hhead Hlast. unfold trim.
  rewrite (@trim_start_fixed s Hhead). now apply trim_end_fixed.
Qed.

Lemma trim_idempotent (s : jsstring) : trim (trim s) = trim s.
Proof.
  destruct (trim_ends s). now apply trim_fixed.
Qed.
End TrimFacts.

(** ** One search, from submission to answer *)
Section SearchLifecycle.
Import JS Frontend Frontend.Search Frontend.AppComponent.
Local Open Scope string_scope.

(** Property X1. [onSearch] subscribes to exactly one search request when
    the query holds a character that is not white space, and has no effect
    besides signals when it holds none; nothing else of the state matters,
    the loading flag included. *)
Theorem onSearch_sends_unless_blank :
  forall a : App,
    snd (onSearch a)
    = if forallb is_white_space (query a) then []
      else [Subscribe (search (trim (query a)) (Some 10%Z))].
Proof.
  intros a. unfold onSearch. rewrite <- trim_blank.
  destruct (trim (query a)); reflexivity.
Qed.

(** Property X2. The text that [onSearch] sends as parameter q is the
    query without the white space at its two ends: the query is that text
    between two runs of white space, and the text neither starts nor ends
    with white space. The request goes to the search address with limit
    10. *)
Theorem onSearch_sent_text :
  forall (a : App) (req : HttpGet),
    In req (requests (snd (onSearch a))) ->
    exists pre sent post : jsstring,
      query a = (pre ++ sent ++ post)%list
      /\ forallb is_white_space pre = true
      /\ forallb is_white_space post = true
      /\ option_map is_white_space (hd_error sent) = Some false
      /\ option_map is_white_space (hd_error (rev sent)) = Some false
      /\ get_params req = [ (js "q", sent); (js "limit", js "10") ]
      /\ get_url req = js "http://127.0.0.1:8000/api/search".
Proof.
  intros a req Hin.
  destruct (trim_split (query a)) as [pre [post [Hsplit [Hpre Hpost]]]].
  destruct (trim_ends (query a)) as [Hhead Hlast].
  exists pre, (trim (query a)), post.
  unfold onSearch in Hin.
  destruct (trim (query a)) as [| c rest] eqn:Htrim; simpl in Hin;
    [contradiction |].
  destruct Hin as [<- | []].
  repeat split; try assumption.
  - simpl. now rewrite Hhead.
  - destruct (rev (c :: rest)) as [| d r] eqn:Hrev.
    + apply (f_equal (@List.length N)) in Hrev.
      rewrite length_rev in Hrev. discriminate.
    + simpl. now rewrite Hlast.
Qed.

Lemma onSearch_sent_text_witness :
  exists pre sent post : jsstring,
    query (set_query (js "  loire ") initial) = (pre ++ sent ++ post)%list
    /\ forallb is_white_space pre = true
    /\ forallb is_white_space post = true
    /\ option_map is_white_space (hd_error sent) = Some false
    /\ option_map is_white_space (hd_error (rev sent)) = Some false
    /\ get_params (search (js "loire") (Some 10%Z))
       = [ (js "q", sent); (js "limit", js "10") ]
    /\ get_url (search (js "loire") (Some 10%Z))
       = js "http://127.0.0.1:8000/api/search".
Proof.
  apply (@onSearch_sent_text (set_query (js "  loire ") initial)
                             (search (js "loire") (Some 10%Z))).
  left. reflexivity.
Defined.

(** Property X3. Submitting the trimmed text has the same effects as
    submitting the text itself: trimming twice is trimming once. *)
Theorem onSearch_resubmit_trimmed :
  forall a : App,
    snd (onSearch (set_query (trim (query a)) a)) = snd (onSearch a).
Proof.
  intros a. unfold onSearch. simpl. rewrite trim_idempotent.
  destruct (trim (query a)); reflexivity.
Qed.

(** Property X4. When [onSearch] starts a search, the earlier results and
    the earlier error message are gone and the loading flag is up, until
    the answer comes. *)
Theorem onSearch_clears_previous :
  forall a : App,
    forallb is_white_space (query a) = false ->
    isLoading (fst (onSearch a)) = true
    /\ errorMessage (fst (onSearch a)) = None
    /\ searchResults (fst (onSearch a)) = None.
Proof.
  intros a Hvisible. rewrite <- trim_blank in Hvisible. unfold onSearch.
  destruct (trim (query a)); [discriminate |]. repeat split.
Qed.

Lemma onSearch_clears_previous_witness :
  let a := set_searchResults (Some sample_response)
             (set_query (js "loire") initial) in
  isLoading (fst (onSearch a)) = true
  /\ errorMessage (fst (onSearch a)) = None
  /\ searchResults (fst (onSearch a)) = None.
Proof.
  apply (@onSearch_clears_previous
           (set_searchResults (Some sample_response)
              (set_query (js "loire") initial))).
  reflexivity.
Defined.

(** Property X5. A search that is answered: after [onSearch] and the
    [next] callback the results are the answer, the loading flag is down,
    no error message is left, every other signal is as before, and one
    request was sent. *)
Theorem search_success_cycle :
  forall (a : App) (results : SearchResponse),
    forallb is_white_space (query a) = false ->
    seq onSearch (onSearch_next results) a
    = ({| title := title a; query := query a;
          searchResults := Some results; isLoading := false;
          errorMessage := None;
          healthStatus := healthStatus a; stats := stats a |},
       [Subscribe (search (trim (query a)) (Some 10%Z))]).
Proof.
  intros a results Hvisible. rewrite <- trim_blank in Hvisible.
  unfold seq, onSearch.
  destruct (trim (query a)); [discriminate |]. reflexivity.
Qed.

Lemma search_success_cycle_witness :
  let a := set_query (js " loire") initial in
  seq onSearch (onSearch_next sample_response) a
  = ({| title := title a; query := query a;
        searchResults := Some sample_response; isLoading := false;
        errorMessage := None;
        healthStatus := healthStatus a; stats := stats a |},
     [Subscribe (search (trim (query a)) (Some 10%Z))]).
Proof.
  apply (@search_success_cycle (set_query (js " loire") initial)
                               sample_response).
  reflexivity.
Defined.

(** Property X6. A search that fails: after [onSearch] and the [error]
    callback no results are on display (the earlier ones were cleared), the
    loading flag is down, the error message is the one of the search, every
    other signal is as before, and the failure was logged after the one
    request. *)
Theorem search_failure_cycle :
  forall a : App,
    forallb is_white_space (query a) = false ->
    seq onSearch onSearch_error a
    = ({| title := title a; query := query a;
          searchResults := None; isLoading := false;
          errorMessage :=
            Some (js "Erreur lors de la recherche. Assurez-vous que l'API est lancée et que l'index est créé.");
          healthStatus := healthStatus a; stats := stats a |},
       [Subscribe (search (trim (query a)) (Some 10%Z));
        ConsoleError (js "Erreur de recherche:")]).
Proof.
  intros a Hvisible. rewrite <- trim_blank in Hvisible.
  unfold seq, onSearch.
  destruct (trim (query a)); [discriminate |]. reflexivity.
Qed.

Lemma search_failure_cycle_witness :
  let a := set_searchResults (Some sample_response)
             (set_query (js "loire") initial) in
  seq onSearch onSearch_error a
  = ({| title := title a; query := query a;
        searchResults := None; isLoading := false;
        errorMessage :=
          Some (js "Erreur lors de la recherche. Assurez-vous que l'API est lancée et que l'index est créé.");
        healthStatus := healthStatus a; stats := stats a |},
     [Subscribe (search (trim (query a)) (Some 10%Z));
      ConsoleError (js "Erreur de recherche:")]).
Proof.
  apply (@search_failure_cycle
           (set_searchResults (Some sample_response)
              (set_query (js "loire") initial))).
  reflexivity.
Defined.

(** Property X7. Neither [onSearch] nor the callbacks of a search write
    the query, the title, the health status or the statistics; the text in
    the query signal stays as typed, untrimmed. *)
Theorem search_keeps_inputs :
  forall (a : App) (e : event),
    e = Submit \/ answers e = Some SearchApi ->
    let a' := fst (handler e a) in
    query a' = query a /\ title a' = title a
    /\ healthStatus a' = healthStatus a /\ stats a' = stats a.
Proof.
  intros a e [-> | He]; simpl.
  - unfold onSearch. destruct (falsy (trim (query a))); repeat split.
  - destruct e; try discriminate He; repeat split.
Qed.

Lemma search_keeps_inputs_witness :
  let a := set_query (js " loire ") initial in
  let a' := fst (handler Submit a) in
  query a' = query a /\ title a' = title a
  /\ healthStatus a' = healthStatus a /\ stats a' = stats a.
Proof.
  apply (@search_keeps_inputs (set_query (js " loire ") initial) Submit).
  left. reflexivity.
Defined.

(** Property X8. [ngOnInit] changes no signal and subscribes to two
    requests without parameters, the health check first and the statistics
    second; it starts no search. *)
Theorem ngOnInit_requests :
  forall a : App,
    ngOnInit a = (a, [Subscribe getHealth; Subscribe getStats])
    /\ map get_url (requests (snd (ngOnInit a)))
       = [ js "http://127.0.0.1:8000/api/health";
           js "http://127.0.0.1:8000/api/stats" ]
    /\ map get_params (requests (snd (ngOnInit a))) = [ []; [] ].
Proof.
  intros a. repeat split.
Qed.

(** Property X9. Answers to requests of different endpoints (health,
    statistics, search; success or failure) write different signals: the
    state after two of them does not depend on which came first. *)
Theorem answers_commute :
  forall (e1 e2 : event) (k1 k2 : endpoint) (a : App),
    answers e1 = Some k1 -> answers e2 = Some k2 -> k1 <> k2 ->
    fst (seq (handler e1) (handler e2) a)
    = fst (seq (handler e2) (handler e1) a).
Proof.
  intros e1 e2 k1 k2 a H1 H2 Hne.
  destruct e1; try discriminate H1; destruct e2; try discriminate H2;
    simpl in H1, H2;
    injection H1 as <-; injection H2 as <-;
    try (exfalso; apply Hne; reflexivity).
  all: unfold seq, handler, checkHealth_next, checkHealth_error,
         loadStats_next, loadStats_error, onSearch_next, onSearch_error, fst.
  all: reflexivity.
Qed.

Lemma answers_commute_witness :
  fst (seq (handler HealthError) (handler (SearchNext sample_response)) initial)
  = fst (seq (handler (SearchNext sample_response)) (handler HealthError) initial).
Proof.
  apply (@answers_commute HealthError (SearchNext sample_response)
                          Health SearchApi initial).
  - reflexivity.
  - reflexivity.
  - discriminate.
Defined.

(** Property X10. The request of [search] determines its arguments: two
    calls with safe integers for limits that make the same request have
    the same query text and the same limit. *)
Theorem search_request_injective :
  forall (q q' : jsstring) (n n' : Z),
    is_safe_integer n -> is_safe_integer n' ->
    search q (Some n) = search q' (Some n') -> q = q' /\ n = n'.
Proof.
  intros q q' n n' _ _ Heq.
  apply (f_equal get_params) in Heq. simpl in Heq.
  injection Heq as Hq Hn. split; [assumption |].
  apply (f_equal parse_decimal) in Hn.
  rewrite !parse_decimal_toString in Hn. congruence.
Qed.

Lemma search_request_injective_witness :
  js "loire" = js "loire" /\ 10%Z = 10%Z.
Proof.
  apply (@search_request_injective (js "loire") (js "loire") 10%Z 10%Z).
  - unfold is_safe_integer, MAX_SAFE_INTEGER. lia.
  - unfold is_safe_integer, MAX_SAFE_INTEGER. lia.
  - reflexivity.
Defined.

End SearchLifecycle.

(** ** The component over time *)
Section Traces.
Import JS Frontend Frontend.Search Frontend.AppComponent.
Local Open Scope string_scope.

Lemma jsstring_eqb_eq (a b : jsstring) : jsstring_eqb a b = true <-> a = b.
Proof.
  unfold jsstring_eqb. destruct (list_eq_dec N.eq_dec a b); split;
    intros H; congruence.
Qed.

Lemma calls_one_endpoint (k : endpoint) (r : HttpGet) (k' : endpoint) :
  calls k r = true -> k <> k' -> calls k' r = false.
Proof.
  unfold calls. intros Hk Hne. apply jsstring_eqb_eq in Hk.
  destruct (jsstring_eqb (get_url r) (endpoint_url k')) eqn:Hk';
    [| reflexivity].
  apply jsstring_eqb_eq in Hk'. rewrite Hk in Hk'.
  destruct k, k'; try (exfalso; apply Hne; reflexivity);
    vm_compute in Hk'; discriminate Hk'.
Qed.

Lemma take_out_others (p q : HttpGet -> bool) (l rest : list HttpGet) :
  (forall r, p r = true -> q r = false) ->
  take_out p l = Some rest ->
  existsb q rest = existsb q l.
Proof.
  intros Hpq. revert rest. induction l as [| r l IH]; intros rest; simpl.
  - discriminate.
  - destruct (p r) eqn:Hp.
    + intros [= <-]. now rewrite (Hpq r Hp).
    + destruct (take_out p l) as [rest' |]; simpl; [| discriminate].
      intros [= <-]. simpl. now rewrite (IH rest' eq_refl).
Qed.

Lemma other_answer_keeps (k : endpoint) (l rest : list HttpGet) :
  k <> SearchApi ->
  take_out (calls k) l = Some rest ->
  existsb (calls SearchApi) rest = existsb (calls SearchApi) l.
Proof.
  intros Hk. apply take_out_others.
  intros r Hr. exact (@calls_one_endpoint k r SearchApi Hr Hk).
Qed.

Lemma step_loading_sound (w w' : world) (e : event) :
  step w e = Some w' -> loading_sound w -> loading_sound w'.
Proof.
  unfold step, loading_sound. intros Hstep Hinv.
  destruct e; simpl in Hstep;
    try (destruct (take_out _ (pending w)) as [rest |] eqn:Ht;
         [| discriminate Hstep]).
  - injection Hstep as <-. simpl. intros Hl.
    destruct (Hinv Hl) as [Hr Hp]. split; [assumption |].
    rewrite existsb_app, Hp. reflexivity.
  - injection Hstep as <-. simpl. intros Hl.
    destruct (Hinv Hl) as [Hr Hp]. split; [assumption |].
    rewrite existsb_app, Hp. reflexivity.
  - unfold onSearch in Hstep.
    destruct (falsy (trim (query (app w)))); injection Hstep as <-; simpl.
    + intros Hl. destruct (Hinv Hl) as [Hr Hp]. split; [assumption |].
      rewrite existsb_app, Hp. reflexivity.
    + intros _. split; [reflexivity |].
      rewrite existsb_app. apply orb_true_iff. right. reflexivity.
  - injection Hstep as <-. simpl. intros Hl.
    destruct (Hinv Hl) as [Hr Hp]. split; [assumption |].
    rewrite app_nil_r, (@other_answer_keeps Health (pending w) rest); [assumption | discriminate | assumption].
  - injection Hstep as <-. simpl. intros Hl.
    destruct (Hinv Hl) as [Hr Hp]. split; [assumption |].
    rewrite app_nil_r, (@other_answer_keeps Health (pending w) rest); [assumption | discriminate | assumption].
  - injection Hstep as <-. simpl. intros Hl.
    destruct (Hinv Hl) as [Hr Hp]. split; [assumption |].
    rewrite app_nil_r, (@other_answer_keeps Stats (pending w) rest); [assumption | discriminate | assumption].
  - injection Hstep as <-. simpl. intros Hl.
    destruct (Hinv Hl) as [Hr Hp]. split; [assumption |].
    rewrite app_nil_r, (@other_answer_keeps Stats (pending w) rest); [assumption | discriminate | assumption].
  - injection Hstep as <-. simpl. discriminate.
  - injection Hstep as <-. simpl. discriminate.
Qed.

Lemma run_loading_sound (es : list event) (w w' : world) :
  run w es = Some w' -> loading_sound w -> loading_sound w'.
Proof.
  revert w. induction es as [| e rest IH]; intros w; simpl.
  - now intros [= <-].
  - destruct (step w e) as [w1 |] eqn:Hstep; [| discriminate].
    intros Hrun Hinv. apply (IH w1 Hrun).
    eapply step_loading_sound; eassumption.
Qed.

(** Property X11. In every state that the component reaches from its
    initial state, by whatever sequence of initialisation, edits,
    submissions and answers to requests under way: when the loading flag is
    up, no results are on display and a search request is still to be
    answered. *)
Theorem loading_means_search_under_way :
  forall (es : list event) (w : world),
    run start es = Some w ->
    isLoading (app w) = true ->
    searchResults (app w) = None
    /\ existsb (calls SearchApi) (pending w) = true.
Proof.
  intros es w Hrun. apply (@run_loading_sound es start w Hrun).
  unfold loading_sound. simpl. discriminate.
Qed.

Lemma loading_means_search_under_way_witness :
  let w := {| app := set_searchResults None
                       (set_errorMessage None
                          (set_isLoading true
                             (set_query (js "loire") initial)));
              pending := [getHealth; getStats;
                          search (js "loire") (Some 10%Z)] |} in
  searchResults (app w) = None
  /\ existsb (calls SearchApi) (pending w) = true.
Proof.
  apply (@loading_means_search_under_way
           [Init; Edit (js "loire"); Submit]
           {| app := set_searchResults None
                       (set_errorMessage None
                          (set_isLoading true
                             (set_query (js "loire") initial)));
              pending := [getHealth; getStats;
                          search (js "loire") (Some 10%Z)] |}).
  - reflexivity.
  - reflexivity.
Defined.

Lemma take_out_of_two (p : HttpGet -> bool) (s : HttpGet) (l : list HttpGet) :
  p s = true ->
  exists rest,
    take_out p ((l ++ [s]) ++ [s]) = Some rest /\ existsb p rest = true.
Proof.
  intros Hs. induction l as [| r l IH]; simpl.
  - rewrite Hs. exists [s]. split; [reflexivity |]. simpl. now rewrite Hs.
  - destruct (p r) eqn:Hr.
    + eexists. split; [reflexivity |].
      rewrite !existsb_app. simpl. rewrite Hs.
      now rewrite orb_true_r.
    + destruct IH as [rest [-> Hrest]]. simpl. eexists. split; [reflexivity |].
      simpl. now rewrite Hrest, orb_true_r.
Qed.

(** Property X12. The converse does not hold. Nothing in [onSearch] looks
    at the loading flag or at an earlier subscription: submitted twice, it
    sends two requests, and the answer to one of them lowers the loading
    flag and puts its results on display while the other is still under
    way. *)
Theorem overlapping_searches :
  forall (w : world) (r : SearchResponse),
    forallb is_white_space (query (app w)) = false ->
    exists w' : world,
      run w [Submit; Submit; SearchNext r] = Some w'
      /\ isLoading (app w') = false
      /\ searchResults (app w') = Some r
      /\ existsb (calls SearchApi) (pending w') = true.
Proof.
  intros w r Hvisible. rewrite <- trim_blank in Hvisible.
  unfold run, step. cbn [answers handler].
  unfold onSearch at 1.
  destruct (trim (query (app w))) as [| c rest] eqn:Htrim; [discriminate |].
  cbn [falsy app pending requests flat_map List.app].
  unfold onSearch at 1.
  cbn [query set_searchResults set_errorMessage set_isLoading].
  rewrite Htrim.
  cbn [falsy app pending requests flat_map List.app].
  destruct (@take_out_of_two (calls SearchApi)
              (search (c :: rest) (Some 10%Z)) (pending w) eq_refl)
    as [left_over [Htake Hstill]].
  rewrite Htake.
  eexists. split; [reflexivity |].
  cbn [app pending requests flat_map snd fst onSearch_next].
  repeat split. now rewrite app_nil_r.
Qed.

Lemma overlapping_searches_witness :
  exists w' : world,
    run {| app := set_query (js "loire") initial; pending := [] |}
        [Submit; Submit; SearchNext sample_response] = Some w'
    /\ isLoading (app w') = false
    /\ searchResults (app w') = Some sample_response
    /\ existsb (calls SearchApi) (pending w') = true.
Proof.
  apply (@overlapping_searches
           {| app := set_query (js "loire") initial; pending := [] |}
           sample_response).
  reflexivity.
Defined.

End Traces.

(** ** The score on display *)
Section Display.
Import JS Frontend Frontend.Search Frontend.AppComponent.
Local Open Scope Z_scope.

Lemma digit_toString (d : Z) :
  0 <= d < 10 -> Z_toString d = [Z.to_N (48 + d)].
Proof.
  intros Hd.
  assert (H : d = 0 \/ d = 1 \/ d = 2 \/ d = 3 \/ d = 4 \/ d = 5 \/ d = 6
              \/ d = 7 \/ d = 8 \/ d = 9) by lia.
  repeat (destruct H as [-> | H]; [reflexivity |]). subst. reflexivity.
Qed.

(** [tenths m e] is not negative, and the tenth it counts is nearest to
    [m * 2 ^ e]: twice their distance, in units of [2 ^ - k], is at most
    one such unit, and less than one when the tenth lies below. *)
Lemma tenths_nearest (m : positive) (e : Z) :
  let n := tenths m e in
  let k := Z.max 0 (- e) in
  let j := Z.max 0 e in
  0 <= n
  /\ - 2 ^ k < 2 * (n * 2 ^ k - 10 * Z.pos m * 2 ^ j) <= 2 ^ k.
Proof.
  unfold tenths. destruct (Z.leb_spec 0 e) as [He | He]; cbv zeta.
  - rewrite (Z.max_l 0 (- e)), (Z.max_r 0 e) by lia.
    assert (0 < 2 ^ e) by (apply Z.pow_pos_nonneg; lia).
    change (2 ^ 0) with 1. split; nia.
  - rewrite (Z.max_r 0 (- e)), (Z.max_l 0 e) by lia.
    change (2 ^ 0) with 1.
    replace (1 - e) with (Z.succ (- e)) by lia.
    rewrite Z.pow_succ_r by lia.
    set (p := 2 ^ (- e)).
    assert (Hp : 0 < p) by (apply Z.pow_pos_nonneg; lia).
    pose proof (Z.div_mod (20 * Z.pos m + p) (2 * p)) as Hdm.
    pose proof (Z.mod_pos_bound (20 * Z.pos m + p) (2 * p)) as Hmod.
    set (n := (20 * Z.pos m + p) / (2 * p)) in *.
    set (r := (20 * Z.pos m + p) mod (2 * p)) in *.
    assert (Hn : 0 <= n) by (apply Z.div_pos; lia).
    split; [assumption |]. nia.
Qed.

(** Property X13. For a score whose product with 100 is finite, not zero
    and below [10 ^ 21] in magnitude, [formatScore] writes a minus sign if
    the product is negative, the digits of [n / 10], a point, the one digit
    [n mod 10] and a percent sign, where [n / 10] is the multiple of one
    tenth that is nearest to the magnitude [m * 2 ^ e] of the product, the
    larger of two that are equally near. *)
Theorem formatScore_nearest_tenth :
  forall (score : number) (s : bool) (m : positive) (e : Z),
    Prim2SF (PrimFloat.mul score 100%float) = S754_finite s m e ->
    whole_part m e < 10 ^ 21 ->
    exists n : Z,
      formatScore score
      = Some ((if s then js "-" else [])
                ++ Z_toString (n / 10)
                ++ [46%N; Z.to_N (48 + n mod 10); 37%N])%list
      /\ 0 <= n / 10
      /\ 0 <= n mod 10 < 10
      /\ - 2 ^ Z.max 0 (- e)
         < 2 * (n * 2 ^ Z.max 0 (- e) - 10 * Z.pos m * 2 ^ Z.max 0 e)
         <= 2 ^ Z.max 0 (- e).
Proof.
  intros score s m e Hfinite Hsmall.
  destruct (tenths_nearest m e) as [Hn Hnear].
  exists (tenths m e).
  assert (Hdigit : 0 <= tenths m e mod 10 < 10) by (apply Z.mod_pos_bound; lia).
  repeat split; try lia.
  - unfold formatScore, toFixed1. rewrite Hfinite.
    destruct (Z.leb_spec (10 ^ 21) (whole_part m e)) as [Hbig | _]; [lia |].
    simpl option_map. cbv zeta. f_equal.
    rewrite (@digit_toString (tenths m e mod 10) Hdigit).
    rewrite <- !app_assoc. reflexivity.
  - apply Z.div_pos; lia.
Qed.

Lemma formatScore_nearest_tenth_witness :
  exists n : Z,
    formatScore 0.5%float
    = Some ([] ++ Z_toString (n / 10)
               ++ [46%N; Z.to_N (48 + n mod 10); 37%N])%list
    /\ 0 <= n / 10
    /\ 0 <= n mod 10 < 10
    /\ - 2 ^ Z.max 0 (- -47)
       < 2 * (n * 2 ^ Z.max 0 (- -47)
              - 10 * Z.pos 7036874417766400 * 2 ^ Z.max 0 (-47))
       <= 2 ^ Z.max 0 (- -47).
Proof.
  apply (@formatScore_nearest_tenth 0.5%float false 7036874417766400 (-47)).
  - vm_compute. reflexivity.
  - vm_compute. reflexivity.
Defined.

(** Some scores as they are displayed. The fourth is the binary64 value
    nearest to 0.0025; its product with 100 is 0.25, which lies between two
    tenths and goes up. *)
Example formatScore_examples :
  map (fun x => option_map ascii_string_of (formatScore x))
      [ 0.5%float; 1%float; 0%float; 0x1.47ae147ae147bp-9%float; nan;
        infinity ]
  = map Some [ "50.0%"; "100.0%"; "0.0%"; "0.3%"; "NaN%"; "Infinity%" ]%string.
Proof. vm_compute. reflexivity. Qed.
End Display.
